(** * Offline shell cache of the frequency-shift PWA

    A shallow embedding of [freqshift_pwa/static/sw.js]: the three event
    handlers of the service worker ([install], [activate], [fetch]) written
    as promise chains over an in-memory model of the host's cache storage
    and network, followed by the properties of the caching policy.

    Conventions of the model.
    - A promise is a computation over the host state [World] that settles
      either fulfilled or rejected; [x <- p ;; k] is
      [p.then((x) => k)].
    - Events are handled one at a time, and the promise a handler gives
      to [event.waitUntil] or [event.respondWith] has settled when the
      event is done.  The one promise the worker leaves unawaited, the
      write of the fetch handler into the cache, has not: it stays pending
      in the host state ([unawaited]) and lands when the host gets to it
      ([Settle]), which can be after later events.
    - [World] keeps, next to the cache storage, the trace of the host API
      calls made so far, so that "reads no cache" and "hits the network
      once" are statements about the trace. *)

From Stdlib Require Import List String Bool Arith Lia.
Import ListNotations.
Open Scope string_scope.
Open Scope list_scope.

(** ** Requests and responses *)

(** A parsed [URL]: the parts of [new URL(request.url)] the worker and the
    cache look at. *)
Record URL : Type := mkURL {
  origin : string;
  pathname : string;
  search : string
}.

Record Request : Type := mkRequest {
  method : string;
  url : URL
}.

Record Response : Type := mkResponse {
  status : nat;
  body : string
}.

Definition url_eqb (u v : URL) : bool :=
  String.eqb (origin u) (origin v)
  && String.eqb (pathname u) (pathname v)
  && String.eqb (search u) (search v).

(** The request key of a cache entry: method and URL. *)
Definition request_eqb (q r : Request) : bool :=
  String.eqb (method q) (method r) && url_eqb (url q) (url r).

(** [response.ok]: a status in the range 200..299. *)
Definition response_ok (r : Response) : bool :=
  Nat.leb 200 (status r) && Nat.leb (status r) 299.

(** ** Cache stores and the cache storage *)

(** One cache store: its entries in insertion order. *)
Definition Cache : Type := list (Request * Response).

(** The cache storage ([caches]): the named stores in creation order. *)
Definition CacheStorage : Type := list (string * Cache).

Fixpoint entries_match (c : Cache) (r : Request) : option Response :=
  match c with
  | [] => None
  | (q, resp) :: c' =>
      if request_eqb q r then Some resp else entries_match c' r
  end.

(** [cache.match(request)]: only a GET request can match. *)
Definition cache_match (c : Cache) (r : Request) : option Response :=
  if String.eqb (method r) "GET" then entries_match c r else None.

(** The entries after [cache.put(q, resp)]: the entry of the same key is
    replaced. *)
Definition entries_put (q : Request) (resp : Response) (c : Cache) : Cache :=
  filter (fun e => negb (request_eqb (fst e) q)) c ++ [(q, resp)].

(** [caches.match(request)] on the storage: the stores are searched in
    creation order and the first hit wins. *)
Fixpoint cs_match (s : CacheStorage) (r : Request) : option Response :=
  match s with
  | [] => None
  | (_, c) :: s' =>
      match cache_match c r with
      | Some resp => Some resp
      | None => cs_match s' r
      end
  end.

Definition cs_keys (s : CacheStorage) : list string := map fst s.

Definition cs_has (n : string) (s : CacheStorage) : bool :=
  existsb (fun e => String.eqb (fst e) n) s.

(** [caches.open(n)] creates the store when it does not exist yet. *)
Definition cs_open (n : string) (s : CacheStorage) : CacheStorage :=
  if cs_has n s then s else s ++ [(n, [])].

Definition cs_delete (n : string) (s : CacheStorage) : CacheStorage :=
  filter (fun e => negb (String.eqb (fst e) n)) s.

Fixpoint cs_get (n : string) (s : CacheStorage) : option Cache :=
  match s with
  | [] => None
  | (m, c) :: s' => if String.eqb m n then Some c else cs_get n s'
  end.

(** The store named [n] is replaced by [f] of it; a name that is not in the
    storage changes nothing. *)
Fixpoint cs_update (n : string) (f : Cache -> Cache) (s : CacheStorage)
  : CacheStorage :=
  match s with
  | [] => []
  | (m, c) :: s' =>
      if String.eqb m n then (m, f c) :: s' else (m, c) :: cs_update n f s'
  end.

(** A lookup in one named store of the storage. *)
Definition store_match (n : string) (s : CacheStorage) (r : Request)
  : option Response :=
  match cs_get n s with
  | Some c => cache_match c r
  | None => None
  end.

(** Store names are unique in a cache storage. *)
Definition storage_wf (s : CacheStorage) : Prop := NoDup (cs_keys s).

(** ** The host *)

(** What the service worker cannot decide: its own origin, what the network
    answers to the [n]-th fetch issued ([None]: the fetch fails), and
    whether the storage refuses a write (quota, partial content, ...). *)
Record Host : Type := mkHost {
  location_origin : string;
  network : nat -> Request -> option Response;
  put_rejects : Request -> Response -> bool
}.

Inductive Error : Type :=
| FetchFailed (r : Request)
| BadResponse (r : Request)
| PutRejected (r : Request).

(** The host API calls of the trace. *)
Inductive Call : Type :=
| CFetch (r : Request)
| CMatch (r : Request)
| COpen (n : string)
| CKeys
| CDelete (n : string)
| CPut (n : string) (r : Request)
| CAddAll (n : string) (rs : list Request).

(** A promise chain that was started and that nobody awaits.  The worker
    has one: [caches.open(CACHE_NAME).then((cache) => cache.put(request,
    copy))], known by the request and the copy of the response it closes
    over. *)
Inductive Job : Type :=
| PutInCurrent (request : Request) (copy : Response).

(** The host state: the cache storage, the trace of the calls that took
    effect (most recent first), and the unawaited chains that have not
    settled yet (oldest first). *)
Record World : Type := mkState {
  caches : CacheStorage;
  calls : list Call;
  pending : list Job
}.

(** A host state in which nothing is pending. *)
Abbreviation mkWorld c t := (mkState c t []).

Definition is_fetch (c : Call) : bool :=
  match c with CFetch _ => true | _ => false end.

(** The number of network fetches issued so far. *)
Definition fetch_count (w : World) : nat :=
  List.length (filter is_fetch (calls w)).

Definition log (c : Call) (w : World) : World :=
  mkState (caches w) (c :: calls w) (pending w).

Definition set_caches (f : CacheStorage -> CacheStorage) (w : World) : World :=
  mkState (f (caches w)) (calls w) (pending w).

(** ** Promises *)

Inductive Settled (A : Type) : Type :=
| Fulfilled (a : A)
| Rejected (e : Error).
Arguments Fulfilled {A} a.
Arguments Rejected {A} e.

Definition Promise (A : Type) : Type := World -> Settled A * World.

Definition resolve {A : Type} (a : A) : Promise A :=
  fun w => (Fulfilled a, w).

Definition reject {A : Type} (e : Error) : Promise A :=
  fun w => (Rejected e, w).

(** [p.then(f)] *)
Definition then_ {A B : Type} (p : Promise A) (f : A -> Promise B)
  : Promise B :=
  fun w =>
    match p w with
    | (Fulfilled a, w') => f a w'
    | (Rejected e, w') => (Rejected e, w')
    end.

Notation "x <- p ;; k" := (then_ p (fun x => k))
  (at level 61, p at next level, right associativity).
Notation "p ;; k" := (then_ p (fun _ => k))
  (at level 61, right associativity).

(** A chain that is started and not awaited: the caller goes on at once,
    and the chain is left to the host. *)
Definition unawaited (j : Job) : Promise unit :=
  fun w => (Fulfilled tt, mkState (caches w) (calls w) (pending w ++ [j])).

(** [Promise.all] over promises that have all been started: every one runs;
    the result is rejected with the first rejection. *)
Fixpoint promise_all {A : Type} (ps : list (Promise A)) : Promise (list A) :=
  match ps with
  | [] => resolve []
  | p :: ps' =>
      fun w =>
        let (o, w1) := p w in
        let (os, w2) := promise_all ps' w1 in
        (match o, os with
         | Fulfilled a, Fulfilled l => Fulfilled (a :: l)
         | Rejected e, _ => Rejected e
         | Fulfilled _, Rejected e => Rejected e
         end, w2)
  end.

(** ** The host API

    The interfaces of the browser that the worker calls ([fetch], [caches],
    [Cache]); they are not code of the worker, and are modelled here as an
    in-memory storage and a scripted network. *)

Section HostAPI.

Context (h : Host).

Definition reply (r : Request) (o : option Response) : Settled Response :=
  match o with
  | Some resp => Fulfilled resp
  | None => Rejected (FetchFailed r)
  end.

(** [fetch(request)] *)
Definition fetch (r : Request) : Promise Response :=
  fun w => (reply r (network h (fetch_count w) r), log (CFetch r) w).

(** [caches.match(request)] *)
Definition caches_match (r : Request) : Promise (option Response) :=
  fun w => (Fulfilled (cs_match (caches w) r), log (CMatch r) w).

(** [caches.open(name)]; the store object is known by its name. *)
Definition caches_open (n : string) : Promise string :=
  fun w => (Fulfilled n, log (COpen n) (set_caches (cs_open n) w)).

(** [caches.keys()] *)
Definition caches_keys : Promise (list string) :=
  fun w => (Fulfilled (cs_keys (caches w)), log CKeys w).

(** [caches.delete(name)] resolves to whether the store existed. *)
Definition caches_delete (n : string) : Promise bool :=
  fun w => (Fulfilled (cs_has n (caches w)),
            log (CDelete n) (set_caches (cs_delete n) w)).

(** [cache.put(request, response)]: rejected for a request that is not a
    GET and when the host refuses the write. *)
Definition cache_put (c : string) (q : Request) (resp : Response)
  : Promise unit :=
  fun w =>
    let w' := log (CPut c q) w in
    if negb (String.eqb (method q) "GET") || put_rejects h q resp
    then (Rejected (PutRejected q), w')
    else (Fulfilled tt, set_caches (cs_update c (entries_put q resp)) w').

(** The request [new Request(path)] of a path given to [cache.addAll]: a GET
    to the worker's own origin. *)
Definition shell_request (path : string) : Request :=
  mkRequest "GET" (mkURL (location_origin h) path "").

(** What [cache.addAll] needs of an answer: an ok response that the host
    stores. *)
Definition storable (q : Request) (r : Response) : Prop :=
  response_ok r = true /\ put_rejects h q r = false.

Definition put_all (es : list (Request * Response)) (c : Cache) : Cache :=
  fold_left (fun acc e => entries_put (fst e) (snd e) acc) es c.

(** [cache.addAll(paths)]: every path is fetched; when every fetch answers
    with an ok response and the host takes every write, all the entries are
    stored, and otherwise none is. *)
Definition cache_addAll (c : string) (paths : list string) : Promise unit :=
  let reqs := map shell_request paths in
  fun w =>
    (resps <- promise_all (map fetch reqs) ;;
     let es := combine reqs resps in
     match find (fun e => negb (response_ok (snd e))) es with
     | Some e => reject (BadResponse (fst e))
     | None =>
         match find (fun e => put_rejects h (fst e) (snd e)) es with
         | Some e => reject (PutRejected (fst e))
         | None =>
             fun w' =>
               (Fulfilled tt, set_caches (cs_update c (put_all es)) w')
         end
     end) (log (CAddAll c reqs) w).

(** ** The service worker: sw.js *)

Definition CACHE_NAME : string := "freqshift-pwa-v1".

Definition APP_SHELL : list string :=
  [ "/";
    "/manifest.webmanifest";
    "/static/icons/icon-192.png";
    "/static/icons/icon-512.png" ].

(** The paths of generated audio, which the worker does not cache. *)
Definition dynamic_path (p : string) : bool :=
  prefix "/result/" p || prefix "/download/" p.

(** [self.addEventListener("install", ...)]: the promise given to
    [event.waitUntil]. *)
Definition oninstall : Promise unit :=
  cache <- caches_open CACHE_NAME ;;
  cache_addAll cache APP_SHELL.

(** [self.addEventListener("activate", ...)]: the promise given to
    [event.waitUntil]. *)
Definition onactivate : Promise (list bool) :=
  keys <- caches_keys ;;
  promise_all
    (map (fun k => caches_delete k)
         (filter (fun k => negb (String.eqb k CACHE_NAME)) keys)).

(** [self.addEventListener("fetch", ...)]: the promise given to
    [event.respondWith]. *)
Definition onfetch (request : Request) : Promise Response :=
  let u := url request in
  if prefix "/result/" (pathname u) || prefix "/download/" (pathname u)
  then fetch request
  else
    cached <- caches_match request ;;
    match cached with
    | Some c => resolve c
    | None =>
        response <- fetch request ;;
        (if String.eqb (method request) "GET"
            && String.eqb (origin u) (location_origin h)
         then
           let copy := response in
           unawaited (PutInCurrent request copy)
         else resolve tt) ;;
        resolve response
    end.

(** An unawaited chain settles: its calls take effect, and however it
    settles nobody is told (the two steps of the chain are taken
    together). *)
Definition land (j : Job) : Promise unit :=
  match j with
  | PutInCurrent request copy =>
      cache <- caches_open CACHE_NAME ;;
      cache_put cache request copy
  end.

(** The host gets to the oldest pending chain, if there is one. *)
Definition settle (w : World) : World :=
  match pending w with
  | [] => w
  | j :: js => snd (land j (mkState (caches w) (calls w) js))
  end.

End HostAPI.

(** ** The events of the worker *)

(** The three events the worker listens to, and the moment, between two
    of them, at which the host lets a pending write land. *)
Inductive Event : Type :=
| Install
| Activate
| Fetch (request : Request)
| Settle.

(** The host state once the listener of an event has run and the promise
    it gave to the event has settled. *)
Definition dispatch (h : Host) (ev : Event) (w : World) : World :=
  match ev with
  | Install => snd (oninstall h w)
  | Activate => snd (onactivate w)
  | Fetch request => snd (onfetch h request w)
  | Settle => settle h w
  end.

(** Events dispatched one after another. *)
Definition dispatch_all (h : Host) (evs : list Event) (w : World) : World :=
  fold_left (fun st ev => dispatch h ev st) evs w.

(** No entry of the store is keyed by a request for generated audio. *)
Definition cache_static (c : Cache) : bool :=
  forallb (fun e => negb (dynamic_path (pathname (url (fst e))))) c.

(** No store of the storage holds generated audio. *)
Definition dynamic_free (s : CacheStorage) : bool :=
  forallb (fun e => cache_static (snd e)) s.

(** The pending write is not one of generated audio. *)
Definition job_static (j : Job) : bool :=
  match j with
  | PutInCurrent q _ => negb (dynamic_path (pathname (url q)))
  end.

(** The pending write is one for the key [q]. *)
Definition writes_key (q : Request) (j : Job) : bool :=
  match j with
  | PutInCurrent k _ => request_eqb k q
  end.

(** The events of a page that is in use: requests, and writes that land;
    no install and no activation. *)
Definition page_traffic (ev : Event) : bool :=
  match ev with
  | Fetch _ | Settle => true
  | Install | Activate => false
  end.

(** ** Hosts and requests of the examples *)

Definition app_origin : string := "https://freqshift.example".

Definition get (o p : string) : Request := mkRequest "GET" (mkURL o p "").

(** The payload [P0], [P1], ... of the [n]-th fetch. *)
Definition payload (n : nat) : string :=
  "P" ++ String (Ascii.ascii_of_nat (48 + n)) EmptyString.

(** A network whose content rotates: every fetch is answered, each time
    with another payload. *)
Definition rotating_host : Host :=
  mkHost app_origin (fun n _ => Some (mkResponse 200 (payload n)))
         (fun _ _ => false).

(** A server that has everything but the large icon. *)
Definition broken_icon_host : Host :=
  mkHost app_origin
         (fun n r =>
            if String.eqb (pathname (url r)) "/static/icons/icon-512.png"
            then None
            else Some (mkResponse 200 (payload n)))
         (fun _ _ => false).

(** A host whose storage takes no write. *)
Definition full_storage_host : Host :=
  mkHost app_origin (fun n _ => Some (mkResponse 200 (payload n)))
         (fun _ _ => true).

Definition not_found : Response := mkResponse 404 "Not Found".

(** A server that knows no page. *)
Definition not_found_host : Host :=
  mkHost app_origin (fun _ _ => Some not_found) (fun _ _ => false).


(** No network at all. *)
Definition offline_host : Host :=
  mkHost app_origin (fun _ _ => None) (fun _ _ => false).

Definition fresh_world : World := mkWorld [] [].

Definition post_request : Request :=
  mkRequest "POST" (mkURL app_origin "/upload" "").

(** A visit: the worker is installed and activated, then the page asks for
    itself, for a processed file and for a script of another origin, and
    the writes left pending land on the way. *)
Definition a_visit : list Event :=
  [ Install; Activate;
    Fetch (get app_origin "/");
    Fetch (get app_origin "/about");
    Fetch (get app_origin "/result/abc123");
    Settle;
    Fetch (get "https://cdn.example" "/lib.js");
    Fetch (get app_origin "/about");
    Settle ].

Definition home_request : Request := get app_origin "/".
Definition about_request : Request := get app_origin "/about".
Definition result_request : Request := get app_origin "/result/abc123".
Definition cdn_request : Request := get "https://cdn.example" "/lib.js".

Definition old_page : Response := mkResponse 200 "old".
Definition new_page : Response := mkResponse 200 "new".

(** A storage with two stale generations around the current one. *)
Definition three_generations : CacheStorage :=
  [ ("freqshift-pwa-v0", [(home_request, old_page)]);
    (CACHE_NAME, [(home_request, new_page)]);
    ("freqshift-pwa-v2", []) ].

(** A storage that holds a stale generation only. *)
Definition stale_only : CacheStorage :=
  [ ("freqshift-pwa-v0", [(home_request, old_page)]) ].

(** A stale generation that knows a page the current one has not stored. *)
Definition stale_then_current : CacheStorage :=
  [ ("freqshift-pwa-v0", [(about_request, old_page)]);
    (CACHE_NAME, []) ].

(** A storage as an activation leaves it. *)
Definition current_only : CacheStorage :=
  [ (CACHE_NAME, [(home_request, new_page)]) ].

(** * Properties *)

(** ** Request keys *)

Lemma url_eqb_eq (u v : URL) : url_eqb u v = true <-> u = v.
Proof.
  destruct u as [o p s], v as [o' p' s']; unfold url_eqb; simpl.
  rewrite !andb_true_iff, !String.eqb_eq.
  split.
  - intros [[-> ->] ->]; reflexivity.
  - intros E; injection E as -> -> ->; auto.
Qed.

Lemma request_eqb_eq (q r : Request) : request_eqb q r = true <-> q = r.
Proof.
  destruct q as [m u], r as [m' u']; unfold request_eqb; simpl.
  rewrite andb_true_iff, String.eqb_eq, url_eqb_eq.
  split.
  - intros [-> ->]; reflexivity.
  - intros E; injection E as -> ->; auto.
Qed.

Lemma request_eqb_refl (q : Request) : request_eqb q q = true.
Proof. apply request_eqb_eq; reflexivity. Qed.

(** ** One cache store *)

Lemma entries_match_app (c1 c2 : Cache) (r : Request) :
  entries_match (c1 ++ c2) r =
  match entries_match c1 r with
  | Some resp => Some resp
  | None => entries_match c2 r
  end.
Proof.
  induction c1 as [|[q resp] c1 IH]; simpl; [reflexivity|].
  destruct (request_eqb q r); [reflexivity | exact IH].
Qed.

Lemma entries_match_filter_same (c : Cache) (q : Request) :
  entries_match (filter (fun e => negb (request_eqb (fst e) q)) c) q = None.
Proof.
  induction c as [|[k resp] c IH]; simpl; [reflexivity|].
  destruct (request_eqb k q) eqn:E; simpl; [exact IH|].
  rewrite E; exact IH.
Qed.

Lemma entries_match_filter_other (c : Cache) (q r : Request) :
  request_eqb q r = false ->
  entries_match (filter (fun e => negb (request_eqb (fst e) q)) c) r =
  entries_match c r.
Proof.
  intros Hqr.
  induction c as [|[k resp] c IH]; simpl; [reflexivity|].
  destruct (request_eqb k q) eqn:E; simpl.
  - apply request_eqb_eq in E; subst k. rewrite Hqr. exact IH.
  - destruct (request_eqb k r); [reflexivity | exact IH].
Qed.

(** A put is read back under its key. *)
Lemma entries_match_put_same (c : Cache) (q : Request) (resp : Response) :
  entries_match (entries_put q resp c) q = Some resp.
Proof.
  unfold entries_put.
  rewrite entries_match_app, entries_match_filter_same; simpl.
  rewrite request_eqb_refl; reflexivity.
Qed.

(** A put leaves the other keys alone. *)
Lemma entries_match_put_other (c : Cache) (q r : Request) (resp : Response) :
  request_eqb q r = false ->
  entries_match (entries_put q resp c) r = entries_match c r.
Proof.
  intros Hqr; unfold entries_put.
  rewrite entries_match_app, entries_match_filter_other by exact Hqr.
  simpl; rewrite Hqr.
  destruct (entries_match c r); reflexivity.
Qed.

(** ** The cache storage *)

Lemma cs_has_get (n : string) (s : CacheStorage) :
  cs_has n s = true <-> exists c, cs_get n s = Some c.
Proof.
  induction s as [|[m c] s IH]; simpl.
  - split; [discriminate | intros [c H]; discriminate].
  - destruct (String.eqb m n); simpl.
    + split; [intros _; exists c; reflexivity | reflexivity].
    + exact IH.
Qed.

Lemma cs_has_keys (n : string) (s : CacheStorage) :
  cs_has n s = true <-> In n (cs_keys s).
Proof.
  induction s as [|[m c] s IH]; simpl.
  - split; [discriminate | tauto].
  - rewrite orb_true_iff, String.eqb_eq, IH; reflexivity.
Qed.

Lemma cs_get_app (n : string) (s t : CacheStorage) :
  cs_get n (s ++ t) =
  match cs_get n s with Some c => Some c | None => cs_get n t end.
Proof.
  induction s as [|[m c] s IH]; simpl; [reflexivity|].
  destruct (String.eqb m n); [reflexivity | exact IH].
Qed.

Lemma cs_match_app (s t : CacheStorage) (r : Request) :
  cs_match (s ++ t) r =
  match cs_match s r with Some x => Some x | None => cs_match t r end.
Proof.
  induction s as [|[m c] s IH]; simpl; [reflexivity|].
  destruct (cache_match c r); [reflexivity | exact IH].
Qed.

Lemma cache_match_nil (r : Request) : cache_match [] r = None.
Proof.
  unfold cache_match; destruct (String.eqb (method r) "GET"); reflexivity.
Qed.

(** Opening a store adds no entry. *)
Lemma cs_match_open (n : string) (s : CacheStorage) (r : Request) :
  cs_match (cs_open n s) r = cs_match s r.
Proof.
  unfold cs_open; destruct (cs_has n s); [reflexivity|].
  rewrite cs_match_app; simpl; rewrite cache_match_nil.
  destruct (cs_match s r); reflexivity.
Qed.

Lemma store_match_open (n m : string) (s : CacheStorage) (r : Request) :
  store_match m (cs_open n s) r = store_match m s r.
Proof.
  unfold store_match, cs_open.
  destruct (cs_has n s) eqn:E; [reflexivity|].
  rewrite cs_get_app.
  destruct (cs_get m s); [reflexivity|]; simpl.
  destruct (String.eqb n m); [apply cache_match_nil | reflexivity].
Qed.

(** After [caches.open(n)] the store [n] exists. *)
Lemma cs_get_open (n : string) (s : CacheStorage) :
  exists c, cs_get n (cs_open n s) = Some c.
Proof.
  unfold cs_open; destruct (cs_has n s) eqn:E.
  - apply cs_has_get; exact E.
  - rewrite cs_get_app; destruct (cs_get n s) as [c|]; [exists c; reflexivity|].
    simpl; rewrite String.eqb_refl; exists []; reflexivity.
Qed.

Lemma cs_get_update_same (n : string) (f : Cache -> Cache)
      (s : CacheStorage) (c : Cache) :
  cs_get n s = Some c -> cs_get n (cs_update n f s) = Some (f c).
Proof.
  induction s as [|[m d] s IH]; simpl; [discriminate|].
  destruct (String.eqb m n) eqn:E; simpl; rewrite E.
  - intros H; injection H as ->; reflexivity.
  - exact IH.
Qed.

Lemma cs_keys_update (n : string) (f : Cache -> Cache) (s : CacheStorage) :
  cs_keys (cs_update n f s) = cs_keys s.
Proof.
  induction s as [|[m d] s IH]; simpl; [reflexivity|].
  destruct (String.eqb m n); simpl; [reflexivity | rewrite IH; reflexivity].
Qed.


Lemma cs_delete_twice (k : string) (f : string * Cache -> bool)
      (s : CacheStorage) :
  filter f (cs_delete k s) =
  filter (fun e => negb (String.eqb (fst e) k) && f e) s.
Proof.
  unfold cs_delete.
  induction s as [|e s IH]; simpl; [reflexivity|].
  destruct (String.eqb (fst e) k); simpl.
  - exact IH.
  - destruct (f e); [rewrite IH; reflexivity | exact IH].
Qed.

(** Deleting the stores named in [ks] one after another keeps exactly the
    stores whose name is not in [ks]. *)
Lemma fold_cs_delete (ks : list string) (s : CacheStorage) :
  fold_left (fun st k => cs_delete k st) ks s =
  filter (fun e => negb (existsb (String.eqb (fst e)) ks)) s.
Proof.
  revert s; induction ks as [|k ks IH]; intros s; simpl.
  - symmetry; apply filter_true.
  - rewrite IH, cs_delete_twice.
    apply filter_ext; intros e.
    destruct (String.eqb (fst e) k); reflexivity.
Qed.

(** Among the names of the storage, the stale ones are those that differ
    from the current one. *)
Lemma stale_keys_spec (n : string) (s : CacheStorage) (e : string * Cache) :
  In e s ->
  existsb (String.eqb (fst e))
          (filter (fun k => negb (String.eqb k n)) (cs_keys s))
  = negb (String.eqb (fst e) n).
Proof.
  intros He.
  destruct (String.eqb (fst e) n) eqn:E; simpl.
  - apply not_true_is_false; intros H.
    apply existsb_exists in H as [k [Hk Hek]].
    apply filter_In in Hk as [_ Hk].
    apply String.eqb_eq in Hek; subst k.
    rewrite E in Hk; discriminate.
  - apply existsb_exists; exists (fst e); split.
    + apply filter_In; split.
      * unfold cs_keys; apply in_map; exact He.
      * rewrite E; reflexivity.
    + apply String.eqb_refl.
Qed.

(** With unique names, the stores named [n] are one or none. *)
Lemma keys_of_named (n : string) (s : CacheStorage) :
  storage_wf s ->
  cs_keys (filter (fun e => String.eqb (fst e) n) s) =
  if cs_has n s then [n] else [].
Proof.
  unfold storage_wf.
  induction s as [|[m c] s IH]; simpl; intros Hnd; [reflexivity|].
  inversion Hnd as [|? ? Hnotin Hnd']; subst.
  specialize (IH Hnd').
  destruct (String.eqb m n) eqn:E; simpl.
  - apply String.eqb_eq in E; subst m.
    rewrite IH.
    destruct (cs_has n s) eqn:Hh; [|reflexivity].
    apply cs_has_keys in Hh; contradiction.
  - exact IH.
Qed.

Lemma cs_get_named (n : string) (s : CacheStorage) :
  cs_get n (filter (fun e => String.eqb (fst e) n) s) = cs_get n s.
Proof.
  induction s as [|[m c] s IH]; simpl; [reflexivity|].
  destruct (String.eqb m n) eqn:E; simpl; [rewrite E; reflexivity | exact IH].
Qed.

Lemma cs_get_named_other (n m : string) (s : CacheStorage) :
  m <> n ->
  cs_get m (filter (fun e => String.eqb (fst e) n) s) = None.
Proof.
  intros Hmn.
  induction s as [|[k c] s IH]; simpl; [reflexivity|].
  destruct (String.eqb k n) eqn:E; simpl; [|exact IH].
  apply String.eqb_eq in E; subst k.
  destruct (String.eqb n m) eqn:E'; [|exact IH].
  apply String.eqb_eq in E'; congruence.
Qed.

(** ** Well-formed storages stay well-formed *)

Lemma storage_wf_open (n : string) (s : CacheStorage) :
  storage_wf s -> storage_wf (cs_open n s).
Proof.
  unfold storage_wf, cs_open; intros H.
  destruct (cs_has n s) eqn:E; [exact H|].
  unfold cs_keys; rewrite map_app; simpl.
  apply NoDup_app; [exact H | repeat constructor; simpl; tauto |].
  intros a Ha [<-|[]].
  apply cs_has_keys in Ha; congruence.
Qed.

Lemma storage_wf_filter (f : string * Cache -> bool) (s : CacheStorage) :
  storage_wf s -> storage_wf (filter f s).
Proof.
  unfold storage_wf.
  induction s as [|[m c] s IH]; simpl; intros H; [exact H|].
  inversion H as [|? ? Hnotin Hnd]; subst.
  destruct (f (m, c)); simpl; [|auto].
  constructor; [|auto].
  intros Hin; apply Hnotin.
  unfold cs_keys in *; apply in_map_iff in Hin as [e [He Hin]].
  apply filter_In in Hin as [Hin _].
  apply in_map_iff; exists e; auto.
Qed.

Lemma storage_wf_update (n : string) (f : Cache -> Cache) (s : CacheStorage) :
  storage_wf s -> storage_wf (cs_update n f s).
Proof. unfold storage_wf; rewrite cs_keys_update; auto. Qed.

(** ** Running the promises of the host *)

Lemma fetch_count_log (c : Call) (w : World) :
  fetch_count (log c w) =
  if is_fetch c then S (fetch_count w) else fetch_count w.
Proof. unfold fetch_count, log; simpl. destruct (is_fetch c); reflexivity. Qed.

(** The deletions of [activate]: all of them run, none is rejected. *)
Lemma promise_all_delete (ks : list string) (w : World) :
  exists bs,
    promise_all (map (fun k => caches_delete k) ks) w =
    (Fulfilled bs,
     mkState (fold_left (fun st k => cs_delete k st) ks (caches w))
             (rev (map CDelete ks) ++ calls w)
             (pending w)).
Proof.
  revert w; induction ks as [|k ks IH]; intros w; simpl.
  - exists []; destruct w; reflexivity.
  - destruct (IH (log (CDelete k) (set_caches (cs_delete k) w))) as [bs Hbs].
    exists (cs_has k (caches w) :: bs).
    change (caches_delete k w)
      with (Fulfilled (cs_has k (caches w)),
            log (CDelete k) (set_caches (cs_delete k) w)).
    cbv iota beta.
    rewrite Hbs; simpl.
    rewrite <- app_assoc; reflexivity.
Qed.

(** What [activate] does to the cache storage: the stores named
    [CACHE_NAME] stay, as they are, and no other. *)
Lemma onactivate_run (w : World) :
  exists bs w',
    onactivate w = (Fulfilled bs, w') /\
    caches w' = filter (fun e => String.eqb (fst e) CACHE_NAME) (caches w).
Proof.
  unfold onactivate, then_, caches_keys.
  destruct (promise_all_delete
              (filter (fun k => negb (String.eqb k CACHE_NAME))
                      (cs_keys (caches w)))
              (log CKeys w)) as [bs Hbs].
  rewrite Hbs.
  eexists; eexists; split; [reflexivity|]; simpl.
  rewrite fold_cs_delete.
  apply filter_ext_in; intros e He.
  rewrite stale_keys_spec by exact He.
  apply negb_involutive.
Qed.

(** ** The branches of the fetch handler *)

Section FetchBranches.

Context (h : Host) (req : Request) (w : World).

Lemma onfetch_dynamic :
  dynamic_path (pathname (url req)) = true ->
  onfetch h req w =
  (reply req (network h (fetch_count w) req), log (CFetch req) w).
Proof.
  unfold dynamic_path, onfetch; intros ->; reflexivity.
Qed.

Hypothesis Hstatic : dynamic_path (pathname (url req)) = false.

Lemma onfetch_hit (r : Response) :
  cs_match (caches w) req = Some r ->
  onfetch h req w = (Fulfilled r, log (CMatch req) w).
Proof.
  unfold dynamic_path in Hstatic; unfold onfetch; rewrite Hstatic.
  unfold then_, caches_match; intros ->; reflexivity.
Qed.

Hypothesis Hmiss : cs_match (caches w) req = None.

Lemma onfetch_miss_failed :
  network h (fetch_count w) req = None ->
  onfetch h req w =
  (Rejected (FetchFailed req), log (CFetch req) (log (CMatch req) w)).
Proof.
  unfold dynamic_path in Hstatic; unfold onfetch; rewrite Hstatic.
  unfold then_, caches_match, fetch; rewrite Hmiss.
  rewrite fetch_count_log; simpl; intros ->; reflexivity.
Qed.

Lemma onfetch_miss_unstored :
  String.eqb (method req) "GET"
  && String.eqb (origin (url req)) (location_origin h) = false ->
  onfetch h req w =
  (reply req (network h (fetch_count w) req),
   log (CFetch req) (log (CMatch req) w)).
Proof.
  unfold dynamic_path in Hstatic; unfold onfetch; rewrite Hstatic.
  unfold then_, caches_match, fetch; rewrite Hmiss.
  rewrite fetch_count_log; simpl; intros ->.
  destruct (network h (fetch_count w) req); reflexivity.
Qed.

Lemma onfetch_miss_stored (resp : Response) :
  String.eqb (method req) "GET"
  && String.eqb (origin (url req)) (location_origin h) = true ->
  network h (fetch_count w) req = Some resp ->
  onfetch h req w =
  (Fulfilled resp,
   mkState (caches w) (CFetch req :: CMatch req :: calls w)
           (pending w ++ [PutInCurrent req resp])).
Proof.
  unfold dynamic_path in Hstatic; unfold onfetch; rewrite Hstatic.
  unfold then_, caches_match, fetch; rewrite Hmiss.
  rewrite fetch_count_log; simpl; intros -> ->; reflexivity.
Qed.

End FetchBranches.

(** The world after the write of a cache miss that the host takes. *)
Lemma cache_put_taken (h : Host) (n : string) (q : Request)
      (resp : Response) (w : World) :
  method q = "GET" ->
  put_rejects h q resp = false ->
  cache_put h n q resp w =
  (Fulfilled tt,
   mkState (cs_update n (entries_put q resp) (caches w))
           (CPut n q :: calls w) (pending w)).
Proof.
  unfold cache_put; intros -> ->; reflexivity.
Qed.

(** A write the host refuses leaves the storage as it was. *)
Lemma cache_put_refused (h : Host) (n : string) (q : Request)
      (resp : Response) (w : World) :
  put_rejects h q resp = true ->
  cache_put h n q resp w =
  (Rejected (PutRejected q),
   mkState (caches w) (CPut n q :: calls w) (pending w)).
Proof.
  unfold cache_put; intros ->; rewrite orb_true_r; reflexivity.
Qed.

(** The storage when a pending write lands: the current store is opened,
    and the response is put into it when the request is a GET and the host
    takes the write. *)
Lemma land_caches (h : Host) (q : Request) (resp : Response) (w : World) :
  caches (snd (land h (PutInCurrent q resp) w)) =
  if negb (String.eqb (method q) "GET") || put_rejects h q resp
  then cs_open CACHE_NAME (caches w)
  else cs_update CACHE_NAME (entries_put q resp)
                 (cs_open CACHE_NAME (caches w)).
Proof.
  unfold land, then_, caches_open, cache_put; simpl.
  destruct (negb (String.eqb (method q) "GET") || put_rejects h q resp);
    reflexivity.
Qed.


Lemma land_pending (h : Host) (j : Job) (w : World) :
  pending (snd (land h j w)) = pending w.
Proof.
  destruct j as [q resp]; unfold land, then_, caches_open, cache_put; simpl.
  destruct (negb (String.eqb (method q) "GET") || put_rejects h q resp);
    reflexivity.
Qed.


(** A write that the host refuses changes no answer of the storage. *)
Lemma land_refused (h : Host) (q : Request) (resp : Response) (w : World) :
  put_rejects h q resp = true ->
  caches (snd (land h (PutInCurrent q resp) w))
  = cs_open CACHE_NAME (caches w).
Proof.
  intros Hput; rewrite land_caches, Hput, orb_true_r; reflexivity.
Qed.

(** A miss of a same-origin GET that the network answers: the answer is
    delivered after one fetch, nothing is written yet, and the write of
    the answer is left pending. *)
Lemma onfetch_miss_spawns (h : Host) (w : World) (req : Request)
      (resp : Response) :
  dynamic_path (pathname (url req)) = false ->
  method req = "GET" ->
  origin (url req) = location_origin h ->
  cs_match (caches w) req = None ->
  network h (fetch_count w) req = Some resp ->
  onfetch h req w =
  (Fulfilled resp,
   mkState (caches w) (CFetch req :: CMatch req :: calls w)
           (pending w ++ [PutInCurrent req resp])).
Proof.
  intros Hstatic Hget Horigin Hmiss Hnet.
  apply onfetch_miss_stored; try assumption.
  rewrite Hget, Horigin; simpl; apply String.eqb_refl.
Qed.

(** A miss goes to the network once and delivers what it answers. *)
Lemma onfetch_miss_reply (h : Host) (w : World) (req : Request) :
  dynamic_path (pathname (url req)) = false ->
  cs_match (caches w) req = None ->
  fst (onfetch h req w) = reply req (network h (fetch_count w) req) /\
  fetch_count (snd (onfetch h req w)) = S (fetch_count w).
Proof.
  intros Hstatic Hmiss.
  destruct (network h (fetch_count w) req) as [resp|] eqn:Hn.
  2:{ rewrite (onfetch_miss_failed h req w Hstatic Hmiss Hn).
      split; reflexivity. }
  destruct (String.eqb (method req) "GET"
            && String.eqb (origin (url req)) (location_origin h)) eqn:Hc.
  - rewrite (onfetch_miss_stored h req w Hstatic Hmiss resp Hc Hn).
    split; reflexivity.
  - rewrite (onfetch_miss_unstored h req w Hstatic Hmiss Hc), Hn.
    split; reflexivity.
Qed.


(** A hit is an entry stored under exactly the key of the request, in some
    store of the storage. *)
Lemma entries_match_In (c : Cache) (r : Request) (x : Response) :
  entries_match c r = Some x -> In (r, x) c.
Proof.
  induction c as [|[q resp] c IH]; simpl; [discriminate|].
  destruct (request_eqb q r) eqn:E.
  - apply request_eqb_eq in E; subst q.
    intros H; injection H as ->; left; reflexivity.
  - intros H; right; auto.
Qed.

Lemma cs_match_In (s : CacheStorage) (r : Request) (x : Response) :
  cs_match s r = Some x ->
  exists n c, In (n, c) s /\ In (r, x) c.
Proof.
  induction s as [|[n c] s IH]; simpl; [discriminate|].
  destruct (cache_match c r) as [y|] eqn:E.
  - intros H; injection H as ->.
    exists n, c; split; [left; reflexivity|].
    unfold cache_match in E.
    destruct (String.eqb (method r) "GET"); [|discriminate].
    apply entries_match_In; exact E.
  - intros H; destruct (IH H) as [n' [c' [Hin Hc']]].
    exists n', c'; split; [right; exact Hin | exact Hc'].
Qed.

(** In a storage whose only store is [n], [caches.match] is a lookup in
    [n]. *)
Lemma cs_match_single (n : string) (s : CacheStorage) (r : Request) :
  cs_keys s = [n] -> cs_match s r = store_match n s r.
Proof.
  destruct s as [|[m c] [|e s]]; simpl; try discriminate.
  intros H; injection H as ->.
  unfold store_match; simpl; rewrite String.eqb_refl.
  destruct (cache_match c r); reflexivity.
Qed.

(** ** Installation *)

Lemma map_fst_combine {A B : Type} (l : list A) (l' : list B) :
  List.length l' = List.length l -> map fst (combine l l') = l.
Proof.
  revert l'; induction l as [|a l IH]; intros [|b l']; simpl;
    try discriminate; try reflexivity.
  intros H; injection H as H; rewrite IH by exact H; reflexivity.
Qed.

(** A put keeps the keys that were there. *)
Lemma entries_put_keeps (k q : Request) (x : Response) (c : Cache) :
  (exists r, entries_match c q = Some r) ->
  exists r, entries_match (entries_put k x c) q = Some r.
Proof.
  intros [r Hr].
  destruct (request_eqb k q) eqn:E.
  - apply request_eqb_eq in E; subst k.
    exists x; apply entries_match_put_same.
  - exists r; rewrite entries_match_put_other by exact E; exact Hr.
Qed.

Lemma put_all_keeps (es : list (Request * Response)) (c : Cache)
      (q : Request) :
  (exists r, entries_match c q = Some r) ->
  exists r, entries_match (put_all es c) q = Some r.
Proof.
  revert c; induction es as [|e es IH]; intros c Hc; simpl; [exact Hc|].
  apply IH, entries_put_keeps, Hc.
Qed.

(** After the puts of [es], every key of [es] has an entry. *)
Lemma put_all_match (es : list (Request * Response)) (c : Cache)
      (q : Request) :
  In q (map fst es) ->
  exists r, entries_match (put_all es c) q = Some r.
Proof.
  revert c; induction es as [|e es IH]; intros c; simpl; [tauto|].
  intros [<- | Hin].
  - apply put_all_keeps.
    exists (snd e); apply entries_match_put_same.
  - apply IH; exact Hin.
Qed.

Section Install.

Context (h : Host).

(** The fetches of [addAll] touch no cache store. *)
Lemma promise_all_fetch_caches (reqs : list Request) (w : World) :
  caches (snd (promise_all (map (fetch h) reqs) w)) = caches w.
Proof.
  revert w; induction reqs as [|q reqs IH]; intros w; simpl; [reflexivity|].
  specialize (IH (log (CFetch q) w)).
  destruct (promise_all (map (fetch h) reqs) (log (CFetch q) w)) as [os w2].
  exact IH.
Qed.

(** When all of them are answered, there is an answer for each. *)
Lemma promise_all_fetch_fulfilled (reqs : list Request) (w w' : World)
      (l : list Response) :
  promise_all (map (fetch h) reqs) w = (Fulfilled l, w') ->
  List.length l = List.length reqs.
Proof.
  revert w w' l; induction reqs as [|q reqs IH]; intros w w' l; simpl.
  - unfold resolve; intros H; injection H as <- _; reflexivity.
  - specialize (IH (log (CFetch q) w)).
    destruct (promise_all (map (fetch h) reqs) (log (CFetch q) w))
      as [[l'|e] w2].
    + destruct (reply q (network h (fetch_count w) q));
        intros H; [|discriminate].
      injection H as <- _; simpl.
      rewrite (IH w2 l' eq_refl); reflexivity.
    + destruct (reply q (network h (fetch_count w) q)); discriminate.
Qed.

(** One fetch that fails rejects them all.  The [i]-th request of the list
    is the fetch number [fetch_count w + i]. *)
Lemma promise_all_fetch_rejected (reqs : list Request) (w : World)
      (i : nat) (q : Request) :
  nth_error reqs i = Some q ->
  network h (fetch_count w + i) q = None ->
  exists e, fst (promise_all (map (fetch h) reqs) w) = Rejected e.
Proof.
  revert w i; induction reqs as [|q0 reqs IH]; intros w i.
  - rewrite nth_error_nil; discriminate.
  - simpl.
    destruct i as [|i]; simpl.
    + intros H; injection H as ->.
      rewrite Nat.add_0_r; intros ->; simpl.
      destruct (promise_all (map (fetch h) reqs) (log (CFetch q) w))
        as [os w2].
      exists (FetchFailed q); reflexivity.
    + intros Hnth Hnet.
      destruct (IH (log (CFetch q0) w) i Hnth) as [e He].
      { rewrite fetch_count_log; simpl.
        rewrite <- Nat.add_succ_r; exact Hnet. }
      destruct (promise_all (map (fetch h) reqs) (log (CFetch q0) w))
        as [os w2].
      simpl in He; subst os.
      destruct (reply q0 (network h (fetch_count w) q0)) as [a|e0];
        eexists; reflexivity.
Qed.

(** [addAll] that is rejected has stored nothing. *)
Lemma cache_addAll_rejected (c : string) (paths : list string)
      (w w' : World) (e : Error) :
  cache_addAll h c paths w = (Rejected e, w') -> caches w' = caches w.
Proof.
  unfold cache_addAll, then_.
  pose proof (promise_all_fetch_caches
                (map (shell_request h) paths)
                (log (CAddAll c (map (shell_request h) paths)) w)) as Hc.
  destruct (promise_all _ _) as [[l|e0] w1]; simpl in Hc.
  - unfold reject.
    destruct (find _ _); [intros H; injection H as _ <-; exact Hc|].
    destruct (find _ _); [intros H; injection H as _ <-; exact Hc|].
    discriminate.
  - intros H; injection H as _ <-; exact Hc.
Qed.

(** [addAll] that is fulfilled has put an entry for every path. *)
Lemma cache_addAll_fulfilled (c : string) (paths : list string)
      (w w' : World) :
  cache_addAll h c paths w = (Fulfilled tt, w') ->
  exists es,
    map fst es = map (shell_request h) paths /\
    caches w' = cs_update c (put_all es) (caches w).
Proof.
  unfold cache_addAll, then_.
  pose proof (promise_all_fetch_caches
                (map (shell_request h) paths)
                (log (CAddAll c (map (shell_request h) paths)) w)) as Hc.
  pose proof (promise_all_fetch_fulfilled
                (map (shell_request h) paths)
                (log (CAddAll c (map (shell_request h) paths)) w)) as Hl.
  destruct (promise_all _ _) as [[l|e0] w1]; simpl in Hc; [|discriminate].
  specialize (Hl w1 l eq_refl).
  destruct (find _ _); [discriminate|].
  destruct (find _ _); [discriminate|].
  intros H; injection H as <-.
  exists (combine (map (shell_request h) paths) l); split.
  - apply map_fst_combine; exact Hl.
  - simpl; rewrite Hc; reflexivity.
Qed.

Lemma oninstall_unfold (w : World) :
  oninstall h w =
  cache_addAll h CACHE_NAME APP_SHELL
               (log (COpen CACHE_NAME) (set_caches (cs_open CACHE_NAME) w)).
Proof. reflexivity. Qed.

Lemma promise_all_fetch_answered (reqs : list Request) (w : World) :
  (forall i q, nth_error reqs i = Some q ->
     exists r, network h (fetch_count w + i) q = Some r /\ storable h q r) ->
  exists l w',
    promise_all (map (fetch h) reqs) w = (Fulfilled l, w') /\
    Forall2 (storable h) reqs l.
Proof.
  revert w; induction reqs as [|q0 reqs IH]; intros w Hall; simpl.
  - exists [], w; split; [reflexivity | constructor].
  - destruct (Hall 0 q0 eq_refl) as [r0 [Hr0 Hok0]].
    rewrite Nat.add_0_r in Hr0; rewrite Hr0; simpl.
    destruct (IH (log (CFetch q0) w)) as [l [w' [Hrun Hl]]].
    { intros i q Hnth.
      rewrite fetch_count_log; simpl.
      rewrite <- Nat.add_succ_r; apply (Hall (S i) q Hnth). }
    rewrite Hrun.
    exists (r0 :: l), w'; split; [reflexivity | constructor; assumption].
Qed.

Lemma storable_none_refused (reqs : list Request) (l : list Response) :
  Forall2 (storable h) reqs l ->
  find (fun e => negb (response_ok (snd e))) (combine reqs l) = None /\
  find (fun e => put_rejects h (fst e) (snd e)) (combine reqs l) = None.
Proof.
  induction 1 as [|q r reqs l [Hok Hput] _ [IH1 IH2]]; simpl.
  - split; reflexivity.
  - rewrite Hok, Hput; simpl; split; assumption.
Qed.

(** The install succeeds when every app-shell URL is answered with an ok
    response that the host stores. *)
Lemma oninstall_succeeds (w : World) :
  (forall i path, nth_error APP_SHELL i = Some path ->
     exists r,
       network h (fetch_count w + i) (shell_request h path) = Some r /\
       storable h (shell_request h path) r) ->
  exists w', oninstall h w = (Fulfilled tt, w').
Proof.
  intros Hall.
  rewrite oninstall_unfold; unfold cache_addAll, then_.
  destruct (promise_all_fetch_answered
              (map (shell_request h) APP_SHELL)
              (log (CAddAll CACHE_NAME (map (shell_request h) APP_SHELL))
                   (log (COpen CACHE_NAME)
                        (set_caches (cs_open CACHE_NAME) w))))
    as [l [w1 [Hrun Hl]]].
  - intros i q Hnth.
    rewrite nth_error_map in Hnth.
    destruct (nth_error APP_SHELL i) as [path|] eqn:Hp; [|discriminate].
    simpl in Hnth; injection Hnth as <-.
    exact (Hall i path Hp).
  - rewrite Hrun.
    destruct (storable_none_refused _ _ Hl) as [-> ->].
    eexists; reflexivity.
Qed.

End Install.

(** Whatever becomes of the install, the current generation's store exists
    after it. *)
Lemma oninstall_opens_current (h : Host) (w : World) :
  cs_has CACHE_NAME (caches (snd (oninstall h w))) = true.
Proof.
  rewrite oninstall_unfold.
  destruct (cs_get_open CACHE_NAME (caches w)) as [c Hc].
  destruct (cache_addAll h CACHE_NAME APP_SHELL _) as [[[]|e] w'] eqn:Hrun;
    simpl.
  - destruct (cache_addAll_fulfilled h _ _ _ _ Hrun) as [es [_ ->]]; simpl.
    apply cs_has_keys; rewrite cs_keys_update.
    apply cs_has_keys, cs_has_get; exists c; exact Hc.
  - rewrite (cache_addAll_rejected h _ _ _ _ _ Hrun); simpl.
    apply cs_has_get; exists c; exact Hc.
Qed.

(** ** Unique store names are an invariant of the worker *)

Lemma onactivate_wf (w : World) :
  storage_wf (caches w) -> storage_wf (caches (snd (onactivate w))).
Proof.
  intros Hwf.
  destruct (onactivate_run w) as [bs [w' [Hrun Hcaches]]].
  rewrite Hrun; simpl; rewrite Hcaches.
  apply storage_wf_filter; exact Hwf.
Qed.

Lemma oninstall_wf (h : Host) (w : World) :
  storage_wf (caches w) -> storage_wf (caches (snd (oninstall h w))).
Proof.
  intros Hwf; rewrite oninstall_unfold.
  destruct (cache_addAll h CACHE_NAME APP_SHELL _) as [[[]|e] w'] eqn:Hrun;
    simpl.
  - destruct (cache_addAll_fulfilled h _ _ _ _ Hrun) as [es [_ ->]]; simpl.
    apply storage_wf_update, storage_wf_open, Hwf.
  - rewrite (cache_addAll_rejected h _ _ _ _ _ Hrun); simpl.
    apply storage_wf_open, Hwf.
Qed.

(** The fetch handler itself writes nothing into the cache storage. *)
Lemma onfetch_leaves_caches (h : Host) (req : Request) (w : World) :
  caches (snd (onfetch h req w)) = caches w.
Proof.
  unfold onfetch, then_, caches_match, fetch, unawaited, resolve.
  destruct (prefix "/result/" (pathname (url req))
            || prefix "/download/" (pathname (url req))); simpl;
    [reflexivity|].
  destruct (cs_match (caches w) req); simpl; [reflexivity|].
  destruct (reply req _); simpl; [|reflexivity].
  destruct (String.eqb (method req) "GET"
            && String.eqb (origin (url req)) (location_origin h));
    reflexivity.
Qed.

Lemma onfetch_wf (h : Host) (req : Request) (w : World) :
  storage_wf (caches w) -> storage_wf (caches (snd (onfetch h req w))).
Proof. rewrite onfetch_leaves_caches; tauto. Qed.

Lemma settle_wf (h : Host) (w : World) :
  storage_wf (caches w) -> storage_wf (caches (settle h w)).
Proof.
  intros Hwf; unfold settle.
  destruct (pending w) as [|[q resp] js]; [exact Hwf|].
  rewrite land_caches; simpl.
  destruct (negb (String.eqb (method q) "GET") || put_rejects h q resp).
  - apply storage_wf_open, Hwf.
  - apply storage_wf_update, storage_wf_open, Hwf.
Qed.

(** * The caching policy *)

(** ** Generated audio is never cached *)

(** C1. A request whose path starts with ["/result/"] or ["/download/"] is
    answered by a live network fetch and nothing else: the only host call
    the handler makes is the fetch (no cache store is read), the cache
    storage is left as it was (no cache store is written), and the caller
    gets what the network answers to that very fetch; two successive
    requests of the same URL get the two successive answers of the network,
    whatever the storage holds.  No write is left pending either. *)
Theorem dynamic_requests_bypass_cache (h : Host) (w : World) (req : Request) :
  dynamic_path (pathname (url req)) = true ->
  exists w1 w2,
    onfetch h req w = (reply req (network h (fetch_count w) req), w1) /\
    onfetch h req w1
      = (reply req (network h (S (fetch_count w)) req), w2) /\
    calls w1 = CFetch req :: calls w /\
    calls w2 = CFetch req :: CFetch req :: calls w /\
    caches w1 = caches w /\
    caches w2 = caches w /\
    pending w1 = pending w /\
    pending w2 = pending w.
Proof.
  intros Hdyn.
  exists (log (CFetch req) w), (log (CFetch req) (log (CFetch req) w)).
  rewrite !(onfetch_dynamic h req _ Hdyn), fetch_count_log; simpl.
  repeat split.
Qed.

(** The scenario of the rotating content: [GET /result/abc123] twice, in a
    storage that even holds stale generations, gives [P0] and then [P1]. *)
Lemma dynamic_requests_bypass_cache_witness :
  dynamic_path (pathname (url result_request)) = true /\
  exists w1 w2,
    onfetch rotating_host result_request (mkWorld three_generations [])
      = (Fulfilled (mkResponse 200 "P0"), w1) /\
    onfetch rotating_host result_request w1
      = (Fulfilled (mkResponse 200 "P1"), w2) /\
    calls w1 = [CFetch result_request] /\
    calls w2 = [CFetch result_request; CFetch result_request] /\
    caches w1 = three_generations /\
    caches w2 = three_generations /\
    pending w1 = [] /\
    pending w2 = [].
Proof.
  split; [reflexivity|].
  apply (dynamic_requests_bypass_cache
           rotating_host (mkWorld three_generations []) result_request);
    reflexivity.
Defined.

(** ** Opportunistic caching of same-origin GETs *)







(** C7. A cache miss of a path that is not a dynamic one, for a request
    that is cross-origin or not a GET: the caller gets what the network
    answers, the cache storage is left exactly as it was, and the handler
    makes no host call besides the lookup and the fetch and leaves no write
    pending. *)
Theorem foreign_or_non_get_miss_not_stored
        (h : Host) (w : World) (req : Request) :
  dynamic_path (pathname (url req)) = false ->
  cs_match (caches w) req = None ->
  method req <> "GET" \/ origin (url req) <> location_origin h ->
  exists w',
    onfetch h req w = (reply req (network h (fetch_count w) req), w') /\
    caches w' = caches w /\
    calls w' = CFetch req :: CMatch req :: calls w /\
    pending w' = pending w.
Proof.
  intros Hstatic Hmiss Hforeign.
  exists (log (CFetch req) (log (CMatch req) w)).
  split; [|repeat split].
  apply onfetch_miss_unstored; [exact Hstatic | exact Hmiss |].
  apply andb_false_iff.
  destruct Hforeign as [Hm | Ho]; [left | right];
    apply String.eqb_neq; assumption.
Qed.

Lemma foreign_or_non_get_miss_not_stored_witness :
  exists w',
    onfetch rotating_host cdn_request (mkWorld three_generations [])
      = (Fulfilled (mkResponse 200 "P0"), w') /\
    caches w' = three_generations /\
    calls w' = [CFetch cdn_request; CMatch cdn_request] /\
    pending w' = [].
Proof.
  apply (foreign_or_non_get_miss_not_stored
           rotating_host (mkWorld three_generations []) cdn_request);
    [reflexivity | reflexivity | right; discriminate].
Defined.

(** C8. A cache miss of a same-origin GET that the network answers: the
    caller gets the network's answer on every host, whether it takes the
    write into the cache or refuses it.  The answer is delivered before
    the write has landed (the storage is still as it was, the write is
    pending); when the write lands on a host that refuses it, the storage
    holds no entry for the request afterwards, and the answer has been
    delivered all the same. *)
Theorem cache_write_failure_not_fatal
        (h : Host) (w : World) (req : Request) (resp : Response) :
  dynamic_path (pathname (url req)) = false ->
  method req = "GET" ->
  origin (url req) = location_origin h ->
  cs_match (caches w) req = None ->
  network h (fetch_count w) req = Some resp ->
  exists w',
    onfetch h req w = (Fulfilled resp, w') /\
    caches w' = caches w /\
    pending w' = pending w ++ [PutInCurrent req resp] /\
    (put_rejects h req resp = true ->
     caches (snd (land h (PutInCurrent req resp) w'))
       = cs_open CACHE_NAME (caches w) /\
     cs_match (caches (snd (land h (PutInCurrent req resp) w'))) req = None).
Proof.
  intros Hstatic Hget Horigin Hmiss Hnet.
  rewrite (onfetch_miss_spawns h w req resp) by assumption.
  eexists; split; [reflexivity|].
  split; [reflexivity|]. split; [reflexivity|].
  intros Hrej; rewrite land_refused by exact Hrej; simpl.
  split; [reflexivity|].
  rewrite cs_match_open; exact Hmiss.
Qed.

Lemma cache_write_failure_not_fatal_witness :
  exists w',
    onfetch full_storage_host about_request fresh_world
      = (Fulfilled (mkResponse 200 "P0"), w') /\
    caches w' = [] /\
    pending w' = [PutInCurrent about_request (mkResponse 200 "P0")] /\
    (put_rejects full_storage_host about_request (mkResponse 200 "P0") = true ->
     caches (snd (land full_storage_host
                       (PutInCurrent about_request (mkResponse 200 "P0")) w'))
       = [(CACHE_NAME, [])] /\
     cs_match
       (caches (snd (land full_storage_host
                          (PutInCurrent about_request (mkResponse 200 "P0"))
                          w')))
       about_request = None).
Proof.
  apply (cache_write_failure_not_fatal
           full_storage_host fresh_world about_request (mkResponse 200 "P0"));
    reflexivity.
Defined.

(** ** Which store answers a request *)

(** C6, as the claim states it, fails: with a stale generation that was
    created before the current one and holds the page, the handler serves
    the stale store's response without a fetch, although the current
    generation's store has no entry for the request. *)
Lemma stale_store_answers :
  dynamic_path (pathname (url about_request)) = false /\
  onfetch rotating_host about_request (mkWorld stale_then_current [])
    = (Fulfilled old_page,
       mkWorld stale_then_current [CMatch about_request]) /\
  store_match CACHE_NAME stale_then_current about_request = None /\
  store_match "freqshift-pwa-v0" stale_then_current about_request
    = Some old_page.
Proof. repeat split. Qed.

(** C6 (amended). For a request to a path that is not a dynamic one, the
    lookup is [caches.match]: by the exact request key, over all the stores
    of the cache storage in creation order. A response served from the
    cache is an entry stored under exactly that key in some store, and the
    handler serves it with no other host call than the lookup; when the
    current generation's store is the only store of the storage, as after
    an activation, it is that store's answer. *)
Theorem lookup_spans_all_stores
        (h : Host) (w : World) (req : Request) (r : Response) :
  dynamic_path (pathname (url req)) = false ->
  cs_match (caches w) req = Some r ->
  onfetch h req w = (Fulfilled r, log (CMatch req) w) /\
  (exists n c, In (n, c) (caches w) /\ In (req, r) c) /\
  (cs_keys (caches w) = [CACHE_NAME] ->
   store_match CACHE_NAME (caches w) req = Some r).
Proof.
  intros Hstatic Hhit.
  split; [apply onfetch_hit; assumption|].
  split; [apply cs_match_In; exact Hhit|].
  intros Hsingle.
  rewrite <- (cs_match_single _ _ _ Hsingle); exact Hhit.
Qed.

Lemma lookup_spans_all_stores_witness :
  onfetch rotating_host home_request (mkWorld current_only [])
    = (Fulfilled new_page, mkWorld current_only [CMatch home_request]) /\
  (exists n c, In (n, c) current_only /\ In (home_request, new_page) c) /\
  (cs_keys current_only = [CACHE_NAME] ->
   store_match CACHE_NAME current_only home_request = Some new_page).
Proof.
  apply (lookup_spans_all_stores
           rotating_host (mkWorld current_only []) home_request new_page);
    reflexivity.
Defined.

(** ** Activation *)

(** C3, as the claim states it, fails: an activation that starts from a
    storage without the current generation's store completes and leaves no
    store at all, not one. *)
Lemma activate_without_current_leaves_none :
  storage_wf stale_only /\
  onactivate (mkWorld stale_only [])
    = (Fulfilled [true], mkWorld [] [CDelete "freqshift-pwa-v0"; CKeys]) /\
  List.length (cs_keys (caches (snd (onactivate (mkWorld stale_only []))))) = 0.
Proof.
  split; [|split; reflexivity].
  unfold storage_wf; simpl; repeat constructor; simpl; tauto.
Qed.

(** C3 (amended). The activate handler always completes, and after it every
    store whose name differs from [CACHE_NAME] is gone and at most one
    store exists: when the current generation's store existed before (as it
    does after an install), it is the one store left, with its entries as
    they were; when it did not exist, no store is left. *)
Theorem activate_keeps_only_current (w : World) :
  storage_wf (caches w) ->
  exists bs w',
    onactivate w = (Fulfilled bs, w') /\
    (forall n, n <> CACHE_NAME -> cs_get n (caches w') = None) /\
    cs_get CACHE_NAME (caches w') = cs_get CACHE_NAME (caches w) /\
    cs_keys (caches w') =
      (if cs_has CACHE_NAME (caches w) then [CACHE_NAME] else []).
Proof.
  intros Hwf.
  destruct (onactivate_run w) as [bs [w' [Hrun Hcaches]]].
  exists bs, w'; split; [exact Hrun|].
  rewrite Hcaches.
  split; [|split].
  - intros n Hn; apply cs_get_named_other; exact Hn.
  - apply cs_get_named.
  - apply keys_of_named; exact Hwf.
Qed.

(** Generations [v0], [v1], [v2] with [v1] current: only [v1] is left. *)
Lemma activate_keeps_only_current_witness :
  storage_wf three_generations /\
  exists bs w',
    onactivate (mkWorld three_generations []) = (Fulfilled bs, w') /\
    (forall n, n <> CACHE_NAME -> cs_get n (caches w') = None) /\
    cs_get CACHE_NAME (caches w') = Some [(home_request, new_page)] /\
    cs_keys (caches w') = [CACHE_NAME].
Proof.
  assert (Hwf : storage_wf three_generations).
  { unfold storage_wf; simpl; repeat constructor; simpl;
      intuition discriminate. }
  split; [exact Hwf|].
  exact (activate_keeps_only_current (mkWorld three_generations []) Hwf).
Defined.

(** C9. Activation is idempotent: it always succeeds; run in a storage
    without a stale generation it leaves the storage as it is; and a
    second activation after a first one leaves the storage the first one
    produced. *)
Theorem activate_idempotent (w : World) :
  exists bs1 w1 bs2 w2,
    onactivate w = (Fulfilled bs1, w1) /\
    onactivate w1 = (Fulfilled bs2, w2) /\
    caches w2 = caches w1 /\
    ((forall n, In n (cs_keys (caches w)) -> n = CACHE_NAME) ->
     caches w1 = caches w).
Proof.
  destruct (onactivate_run w) as [bs1 [w1 [Hrun1 Hc1]]].
  destruct (onactivate_run w1) as [bs2 [w2 [Hrun2 Hc2]]].
  exists bs1, w1, bs2, w2.
  split; [exact Hrun1|]. split; [exact Hrun2|]. split.
  - rewrite Hc2, Hc1.
    apply forallb_filter_id, forallb_filter.
  - intros Hnone; rewrite Hc1.
    apply forallb_filter_id, forallb_forall.
    intros e He; apply String.eqb_eq, Hnone.
    unfold cs_keys; apply in_map; exact He.
Qed.

Lemma activate_idempotent_witness :
  exists bs1 w1 bs2 w2,
    onactivate (mkWorld current_only []) = (Fulfilled bs1, w1) /\
    onactivate w1 = (Fulfilled bs2, w2) /\
    caches w2 = caches w1 /\
    ((forall n, In n (cs_keys current_only) -> n = CACHE_NAME) ->
     caches w1 = current_only).
Proof.
  exact (activate_idempotent (mkWorld current_only [])).
Defined.

(** ** Installation of the app shell *)

(** C4. After an install that succeeded, the current generation's store
    answers a lookup for each of the four app-shell keys ["/"],
    ["/manifest.webmanifest"], ["/static/icons/icon-192.png"] and
    ["/static/icons/icon-512.png"] with a stored response. *)
Theorem install_stores_app_shell (h : Host) (w w' : World) :
  oninstall h w = (Fulfilled tt, w') ->
  APP_SHELL = [ "/"; "/manifest.webmanifest";
                "/static/icons/icon-192.png"; "/static/icons/icon-512.png" ]
  /\ forall path, In path APP_SHELL ->
       exists resp,
         store_match CACHE_NAME (caches w') (shell_request h path)
         = Some resp.
Proof.
  rewrite oninstall_unfold; intros Hrun.
  split; [reflexivity|].
  intros path Hpath.
  destruct (cache_addAll_fulfilled h _ _ _ _ Hrun) as [es [Hkeys Hcaches]].
  simpl in Hcaches.
  destruct (cs_get_open CACHE_NAME (caches w)) as [c Hc].
  unfold store_match.
  rewrite Hcaches, (cs_get_update_same _ _ _ _ Hc).
  unfold cache_match; simpl.
  apply put_all_match.
  rewrite Hkeys; apply in_map; exact Hpath.
Qed.

Lemma install_stores_app_shell_witness :
  oninstall rotating_host fresh_world
    = (Fulfilled tt, snd (oninstall rotating_host fresh_world)) /\
  forall path, In path APP_SHELL ->
    exists resp,
      store_match CACHE_NAME
                  (caches (snd (oninstall rotating_host fresh_world)))
                  (shell_request rotating_host path)
      = Some resp.
Proof.
  split; [reflexivity|].
  apply (install_stores_app_shell rotating_host fresh_world); reflexivity.
Defined.

(** C5. Install is all or nothing: when the fetch of one of the app-shell
    URLs fails, the promise of the install handler is rejected, and the
    cache storage is the one the handler found, with the current
    generation's store opened and no entry written: every lookup, in the
    current generation's store and in the storage as a whole, answers as
    before the attempt. *)
Theorem install_all_or_nothing (h : Host) (w : World) (i : nat)
        (path : string) :
  nth_error APP_SHELL i = Some path ->
  network h (fetch_count w + i) (shell_request h path) = None ->
  exists e w',
    oninstall h w = (Rejected e, w') /\
    caches w' = cs_open CACHE_NAME (caches w) /\
    (forall q, store_match CACHE_NAME (caches w') q
               = store_match CACHE_NAME (caches w) q) /\
    (forall q, cs_match (caches w') q = cs_match (caches w) q).
Proof.
  intros Hnth Hnet.
  assert (Hrej : exists e w', oninstall h w = (Rejected e, w')).
  { rewrite oninstall_unfold; unfold cache_addAll, then_.
    destruct (promise_all_fetch_rejected
                h (map (shell_request h) APP_SHELL)
                (log (CAddAll CACHE_NAME (map (shell_request h) APP_SHELL))
                     (log (COpen CACHE_NAME)
                          (set_caches (cs_open CACHE_NAME) w)))
                i (shell_request h path)) as [e He].
    - apply map_nth_error; exact Hnth.
    - exact Hnet.
    - destruct (promise_all _ _) as [o w1]; simpl in He; subst o.
      exists e, w1; reflexivity. }
  destruct Hrej as [e [w' Hrun]].
  exists e, w'; split; [exact Hrun|].
  rewrite oninstall_unfold in Hrun.
  apply cache_addAll_rejected in Hrun; simpl in Hrun.
  rewrite Hrun.
  split; [reflexivity|].
  split; intros q; [apply store_match_open | apply cs_match_open].
Qed.

(** The server without the large icon: the three assets it does serve are
    not stored either. *)
Lemma install_all_or_nothing_witness :
  exists e w',
    oninstall broken_icon_host fresh_world = (Rejected e, w') /\
    caches w' = [(CACHE_NAME, [])] /\
    (forall q, store_match CACHE_NAME (caches w') q
               = store_match CACHE_NAME (caches fresh_world) q) /\
    (forall q, cs_match (caches w') q = cs_match (caches fresh_world) q).
Proof.
  apply (install_all_or_nothing broken_icon_host fresh_world 3
           "/static/icons/icon-512.png"); reflexivity.
Defined.

(** * Further properties of the worker *)

(** ** What a fetch event changes *)

Lemma cs_get_update_other (n m : string) (f : Cache -> Cache)
      (s : CacheStorage) :
  m <> n -> cs_get m (cs_update n f s) = cs_get m s.
Proof.
  intros Hmn.
  induction s as [|[k c] s IH]; simpl; [reflexivity|].
  destruct (String.eqb k n) eqn:E; simpl.
  - apply String.eqb_eq in E; subst k.
    destruct (String.eqb n m) eqn:E'; [|reflexivity].
    apply String.eqb_eq in E'; congruence.
  - destruct (String.eqb k m); [reflexivity | exact IH].
Qed.

(** A write that leaves the answer of every store to [q] alone leaves the
    answers of the storage to [q] alone. *)
Lemma store_match_update_frame (n m : string) (f : Cache -> Cache)
      (s : CacheStorage) (q : Request) :
  (forall c, cache_match (f c) q = cache_match c q) ->
  store_match m (cs_update n f s) q = store_match m s q.
Proof.
  intros Hf; unfold store_match.
  induction s as [|[k c] s IH]; simpl; [reflexivity|].
  destruct (String.eqb k n) eqn:E; simpl.
  - destruct (String.eqb k m); [apply Hf | reflexivity].
  - destruct (String.eqb k m); [reflexivity | exact IH].
Qed.

Lemma cs_match_update_frame (n : string) (f : Cache -> Cache)
      (s : CacheStorage) (q : Request) :
  (forall c, cache_match (f c) q = cache_match c q) ->
  cs_match (cs_update n f s) q = cs_match s q.
Proof.
  intros Hf.
  induction s as [|[k c] s IH]; simpl; [reflexivity|].
  destruct (String.eqb k n) eqn:E; simpl.
  - rewrite Hf; reflexivity.
  - rewrite IH; reflexivity.
Qed.

Lemma cache_match_put_other (k q : Request) (x : Response) (c : Cache) :
  k <> q -> cache_match (entries_put k x c) q = cache_match c q.
Proof.
  intros Hkq; unfold cache_match.
  destruct (String.eqb (method q) "GET"); [|reflexivity].
  apply entries_match_put_other.
  destruct (request_eqb k q) eqn:E; [|reflexivity].
  apply request_eqb_eq in E; contradiction.
Qed.

Lemma cs_get_open_other (n m : string) (s : CacheStorage) :
  m <> n -> cs_get m (cs_open n s) = cs_get m s.
Proof.
  intros Hmn; unfold cs_open; destruct (cs_has n s); [reflexivity|].
  rewrite cs_get_app; destruct (cs_get m s); [reflexivity|]; simpl.
  destruct (String.eqb n m) eqn:E; [|reflexivity].
  apply String.eqb_eq in E; congruence.
Qed.

(** What a fetch event leaves pending: nothing, or, for a miss of a
    same-origin GET to a path that is not a dynamic one, the write of what
    the network answered, under the key of the request. *)
Lemma onfetch_pending (h : Host) (req : Request) (w : World) :
  pending (snd (onfetch h req w)) = pending w \/
  (cs_match (caches w) req = None /\
   dynamic_path (pathname (url req)) = false /\
   method req = "GET" /\
   origin (url req) = location_origin h /\
   exists resp,
     network h (fetch_count w) req = Some resp /\
     pending (snd (onfetch h req w))
     = pending w ++ [PutInCurrent req resp]).
Proof.
  destruct (dynamic_path (pathname (url req))) eqn:Hdyn.
  { left; rewrite onfetch_dynamic by exact Hdyn; reflexivity. }
  destruct (cs_match (caches w) req) as [r|] eqn:Hm.
  { left; rewrite (onfetch_hit h req w Hdyn r Hm); reflexivity. }
  destruct (String.eqb (method req) "GET"
            && String.eqb (origin (url req)) (location_origin h)) eqn:Hc.
  2:{ left; rewrite (onfetch_miss_unstored h req w Hdyn Hm Hc); reflexivity. }
  destruct (network h (fetch_count w) req) as [resp|] eqn:Hn.
  2:{ left; rewrite (onfetch_miss_failed h req w Hdyn Hm Hn); reflexivity. }
  right.
  apply andb_true_iff in Hc as Hc'; destruct Hc' as [Hget Ho].
  apply String.eqb_eq in Hget, Ho.
  repeat (split; [reflexivity || assumption|]).
  exists resp; split; [reflexivity|].
  rewrite (onfetch_miss_stored h req w Hdyn Hm resp Hc Hn); reflexivity.
Qed.

(** The store names after a write has landed: those before, and
    [CACHE_NAME]. *)
Lemma land_keys (h : Host) (q : Request) (resp : Response) (w : World) :
  cs_keys (caches (snd (land h (PutInCurrent q resp) w)))
  = cs_keys (cs_open CACHE_NAME (caches w)).
Proof.
  rewrite land_caches.
  destruct (negb (String.eqb (method q) "GET") || put_rejects h q resp);
    [reflexivity | apply cs_keys_update].
Qed.

(** A write that lands leaves every store but the current one alone, and
    in that one every key but its own. *)
Lemma land_frame (h : Host) (k : Request) (resp : Response) (w : World)
      (n : string) (q : Request) :
  n <> CACHE_NAME \/ q <> k ->
  store_match n (caches (snd (land h (PutInCurrent k resp) w))) q
  = store_match n (caches w) q.
Proof.
  intros Hother; rewrite land_caches.
  rewrite <- (store_match_open CACHE_NAME n (caches w) q).
  destruct (negb (String.eqb (method k) "GET") || put_rejects h k resp);
    [reflexivity|].
  destruct Hother as [Hn | Hq].
  - unfold store_match; rewrite cs_get_update_other by exact Hn.
    reflexivity.
  - apply store_match_update_frame; intros c.
    apply cache_match_put_other; congruence.
Qed.

(** A write for another key that lands changes no answer of the storage to
    [q]. *)
Lemma land_keeps_answer (h : Host) (k : Request) (resp : Response)
      (w : World) (q : Request) :
  k <> q ->
  cs_match (caches (snd (land h (PutInCurrent k resp) w))) q
  = cs_match (caches w) q.
Proof.
  intros Hkq; rewrite land_caches.
  destruct (negb (String.eqb (method k) "GET") || put_rejects h k resp).
  - apply cs_match_open.
  - rewrite cs_match_update_frame, cs_match_open; [reflexivity|].
    intros c; apply cache_match_put_other; exact Hkq.
Qed.

(** X1. What a fetch event does to the cache storage.  The handler itself
    writes nothing: when it has answered, the storage is the one it found.
    It leaves at most one write pending, and only for a miss of a
    same-origin GET to a path that is not a dynamic one: the write of the
    network's answer under the key of the request.  When that write lands,
    in whatever state, the store names are those of that state with
    [CACHE_NAME] opened (created empty when it was not there), every other
    store is exactly as it was, and every lookup, in any store, for a key
    other than that of the request answers as before. *)
Theorem fetch_changes_only_its_key
        (h : Host) (req : Request) (w : World) :
  caches (snd (onfetch h req w)) = caches w /\
  (pending (snd (onfetch h req w)) = pending w \/
   (cs_match (caches w) req = None /\
    dynamic_path (pathname (url req)) = false /\
    method req = "GET" /\
    origin (url req) = location_origin h /\
    exists resp,
      network h (fetch_count w) req = Some resp /\
      pending (snd (onfetch h req w))
      = pending w ++ [PutInCurrent req resp])) /\
  forall resp w0,
    cs_keys (caches (snd (land h (PutInCurrent req resp) w0)))
    = cs_keys (cs_open CACHE_NAME (caches w0)) /\
    (forall n, n <> CACHE_NAME ->
       cs_get n (caches (snd (land h (PutInCurrent req resp) w0)))
       = cs_get n (caches w0)) /\
    (forall n q, n <> CACHE_NAME \/ q <> req ->
       store_match n (caches (snd (land h (PutInCurrent req resp) w0))) q
       = store_match n (caches w0) q).
Proof.
  split; [apply onfetch_leaves_caches|].
  split; [apply onfetch_pending|].
  intros resp w0.
  split; [apply land_keys|]. split.
  - intros n Hn; rewrite land_caches.
    destruct (negb (String.eqb (method req) "GET")
              || put_rejects h req resp);
      [|rewrite cs_get_update_other by exact Hn];
      apply cs_get_open_other; exact Hn.
  - intros n q; apply land_frame.
Qed.

(** A miss in a storage with stale generations: the write that lands
    creates no store and leaves the stale page where it is. *)
Lemma fetch_changes_only_its_key_witness :
  caches (snd (onfetch rotating_host about_request
                       (mkWorld three_generations [])))
  = three_generations /\
  pending (dispatch rotating_host (Fetch about_request)
                    (mkWorld three_generations []))
  = [PutInCurrent about_request (mkResponse 200 "P0")] /\
  cs_keys (caches (dispatch_all rotating_host [Fetch about_request; Settle]
                                (mkWorld three_generations [])))
  = cs_keys three_generations /\
  store_match "freqshift-pwa-v0"
    (caches (dispatch_all rotating_host [Fetch about_request; Settle]
                          (mkWorld three_generations [])))
    home_request
  = Some old_page.
Proof.
  destruct (fetch_changes_only_its_key
              rotating_host about_request (mkWorld three_generations []))
    as [Hc [_ Hland]].
  destruct (Hland (mkResponse 200 "P0")
                  (mkState three_generations
                           [CFetch about_request; CMatch about_request] []))
    as [Hk [_ Hframe]].
  split; [exact Hc|]. split; [reflexivity|]. split; [exact Hk|].
  apply (Hframe "freqshift-pwa-v0" home_request); left; discriminate.
Defined.

(** Page traffic keeps what the storage answers to a request that no
    pending write is for. *)
Lemma dispatch_traffic_keeps_hit (h : Host) (ev : Event) (w : World)
      (q : Request) (r : Response) :
  page_traffic ev = true ->
  cs_match (caches w) q = Some r ->
  existsb (writes_key q) (pending w) = false ->
  cs_match (caches (dispatch h ev w)) q = Some r /\
  existsb (writes_key q) (pending (dispatch h ev w)) = false.
Proof.
  intros Hev Hhit Hnone.
  destruct ev as [| |req|]; try discriminate; simpl.
  - rewrite onfetch_leaves_caches; split; [exact Hhit|].
    destruct (onfetch_pending h req w)
      as [-> | [Hmiss [_ [_ [_ [resp [_ ->]]]]]]]; [exact Hnone|].
    rewrite existsb_app, Hnone; simpl.
    rewrite orb_false_r.
    destruct (request_eqb req q) eqn:E; [|reflexivity].
    apply request_eqb_eq in E; subst req.
    rewrite Hhit in Hmiss; discriminate.
  - unfold settle.
    destruct (pending w) as [|[k resp] js] eqn:Hp; [rewrite Hp; auto|].
    simpl in Hnone; apply orb_false_iff in Hnone as [Hk Hjs].
    split; [|rewrite land_pending; exact Hjs].
    rewrite land_keeps_answer; [exact Hhit|].
    intros ->; rewrite request_eqb_refl in Hk; discriminate.
Qed.

Lemma dispatch_all_traffic_keeps_hit (h : Host) (evs : list Event)
      (w : World) (q : Request) (r : Response) :
  forallb page_traffic evs = true ->
  cs_match (caches w) q = Some r ->
  existsb (writes_key q) (pending w) = false ->
  cs_match (caches (dispatch_all h evs w)) q = Some r.
Proof.
  revert w; induction evs as [|ev evs IH]; intros w Hevs Hhit Hnone; simpl.
  - exact Hhit.
  - simpl in Hevs; apply andb_true_iff in Hevs as [Hev Hevs].
    destruct (dispatch_traffic_keeps_hit h ev w q r Hev Hhit Hnone)
      as [Hhit' Hnone'].
    apply IH; assumption.
Qed.

(** Fetch events alone write nothing: what the storage answers stays. *)
Lemma dispatch_fetches_keep_hit (h : Host) (reqs : list Request) (w : World)
      (q : Request) (r : Response) :
  cs_match (caches w) q = Some r ->
  cs_match (caches (dispatch_all h (map Fetch reqs) w)) q = Some r.
Proof.
  revert w; induction reqs as [|req reqs IH]; intros w Hhit; simpl.
  - exact Hhit.
  - apply IH; rewrite onfetch_leaves_caches; exact Hhit.
Qed.



(** X3. A fetch event costs one network fetch, or none: none when the path is
    not a dynamic one and the storage answers the request, one in every
    other case; the handler never fetches twice. *)
Theorem fetch_event_fetches_once_or_not
        (h : Host) (req : Request) (w : World) :
  fetch_count (snd (onfetch h req w)) =
  if negb (dynamic_path (pathname (url req)))
     && match cs_match (caches w) req with Some _ => true | None => false end
  then fetch_count w
  else S (fetch_count w).
Proof.
  destruct (dynamic_path (pathname (url req))) eqn:Hdyn; simpl.
  { rewrite onfetch_dynamic by exact Hdyn; reflexivity. }
  destruct (cs_match (caches w) req) as [r|] eqn:Hm.
  { rewrite (onfetch_hit h req w Hdyn r Hm); reflexivity. }
  apply (onfetch_miss_reply h w req Hdyn Hm).
Qed.

(** X4. A fetch that fails is surfaced and leaves no trace in the storage:
    when the handler goes to the network (a dynamic path, or a request the
    storage has no answer for) and the fetch fails, the promise given to
    [respondWith] is rejected with that failure, after that one attempt,
    the cache storage is as it was and no write is left pending. *)
Theorem failed_fetch_is_surfaced
        (h : Host) (req : Request) (w : World) :
  dynamic_path (pathname (url req)) = true
  \/ cs_match (caches w) req = None ->
  network h (fetch_count w) req = None ->
  exists w',
    onfetch h req w = (Rejected (FetchFailed req), w') /\
    caches w' = caches w /\
    pending w' = pending w /\
    fetch_count w' = S (fetch_count w).
Proof.
  intros Hnet Hfail.
  destruct (dynamic_path (pathname (url req))) eqn:Hdyn.
  - rewrite onfetch_dynamic, Hfail by exact Hdyn.
    eexists; repeat split.
  - destruct Hnet as [Habs | Hmiss]; [discriminate|].
    rewrite (onfetch_miss_failed h req w Hdyn Hmiss Hfail).
    eexists; repeat split.
Qed.

Lemma failed_fetch_is_surfaced_witness :
  exists w',
    onfetch offline_host about_request (mkWorld three_generations [])
      = (Rejected (FetchFailed about_request), w') /\
    caches w' = three_generations /\
    pending w' = [] /\
    fetch_count w' = 1.
Proof.
  apply (failed_fetch_is_surfaced
           offline_host about_request (mkWorld three_generations []));
    [right; reflexivity | reflexivity].
Defined.

Lemma cs_match_non_get (s : CacheStorage) (req : Request) :
  method req <> "GET" -> cs_match s req = None.
Proof.
  intros Hm; apply String.eqb_neq in Hm.
  induction s as [|[n c] s IH]; simpl; [reflexivity|].
  unfold cache_match; rewrite Hm; exact IH.
Qed.

(** X5. A request that is not a GET always goes to the network and is never
    stored: whatever its path and whatever the storage holds, the caller
    gets what the network answers, the cache storage is as it was and no
    write is left pending. *)
Theorem non_get_goes_to_network (h : Host) (req : Request) (w : World) :
  method req <> "GET" ->
  exists w',
    onfetch h req w = (reply req (network h (fetch_count w) req), w') /\
    caches w' = caches w /\
    pending w' = pending w.
Proof.
  intros Hm.
  destruct (dynamic_path (pathname (url req))) eqn:Hdyn.
  - rewrite onfetch_dynamic by exact Hdyn.
    eexists; repeat split.
  - rewrite (onfetch_miss_unstored h req w Hdyn (cs_match_non_get _ _ Hm)).
    + eexists; repeat split.
    + apply String.eqb_neq in Hm; rewrite Hm; reflexivity.
Qed.

Lemma non_get_goes_to_network_witness :
  exists w',
    onfetch rotating_host post_request (mkWorld three_generations [])
      = (Fulfilled (mkResponse 200 "P0"), w') /\
    caches w' = three_generations /\
    pending w' = [].
Proof.
  apply (non_get_goes_to_network
           rotating_host post_request (mkWorld three_generations []));
    discriminate.
Defined.

(** ** What holds over any sequence of events *)

Lemma cs_keys_open (m n : string) (s : CacheStorage) :
  In n (cs_keys (cs_open m s)) -> n = m \/ In n (cs_keys s).
Proof.
  unfold cs_open; destruct (cs_has m s); [tauto|].
  unfold cs_keys; rewrite map_app, in_app_iff; simpl.
  intros [H | [<- | []]]; tauto.
Qed.

(** The storage after an install: the current store opened, and the
    app-shell entries put into it when the install succeeded. *)
Lemma oninstall_caches (h : Host) (w : World) :
  caches (snd (oninstall h w)) = cs_open CACHE_NAME (caches w) \/
  exists es,
    map fst es = map (shell_request h) APP_SHELL /\
    caches (snd (oninstall h w))
    = cs_update CACHE_NAME (put_all es) (cs_open CACHE_NAME (caches w)).
Proof.
  rewrite oninstall_unfold.
  destruct (cache_addAll h CACHE_NAME APP_SHELL _) as [[[]|e] w'] eqn:Hrun;
    simpl.
  - right.
    destruct (cache_addAll_fulfilled h _ _ _ _ Hrun) as [es [Hk ->]].
    exists es; split; [exact Hk | reflexivity].
  - left; rewrite (cache_addAll_rejected h _ _ _ _ _ Hrun); reflexivity.
Qed.

Lemma dispatch_keys (h : Host) (ev : Event) (w : World) (n : string) :
  In n (cs_keys (caches (dispatch h ev w))) ->
  n = CACHE_NAME \/ In n (cs_keys (caches w)).
Proof.
  destruct ev as [| |req|]; simpl.
  - destruct (oninstall_caches h w) as [-> | [es [_ ->]]];
      [|rewrite cs_keys_update]; apply cs_keys_open.
  - destruct (onactivate_run w) as [bs [w' [Hrun Hc]]].
    rewrite Hrun; simpl; rewrite Hc.
    unfold cs_keys; rewrite in_map_iff.
    intros [e [<- He]]; apply filter_In in He as [He _].
    right; apply in_map; exact He.
  - rewrite onfetch_leaves_caches; tauto.
  - unfold settle; destruct (pending w) as [|[q resp] js]; [tauto|].
    rewrite land_keys; apply cs_keys_open.
Qed.

Lemma dispatch_wf (h : Host) (ev : Event) (w : World) :
  storage_wf (caches w) -> storage_wf (caches (dispatch h ev w)).
Proof.
  destruct ev as [| |req|]; simpl;
    [apply oninstall_wf | apply onactivate_wf | apply onfetch_wf
     | apply settle_wf].
Qed.

Lemma dispatch_all_wf (h : Host) (evs : list Event) (w : World) :
  storage_wf (caches w) -> storage_wf (caches (dispatch_all h evs w)).
Proof.
  revert w; induction evs as [|ev evs IH]; intros w Hwf; simpl;
    [exact Hwf | apply IH, dispatch_wf, Hwf].
Qed.

Lemma dispatch_all_keys (h : Host) (evs : list Event) (w : World)
      (n : string) :
  In n (cs_keys (caches (dispatch_all h evs w))) ->
  n = CACHE_NAME \/ In n (cs_keys (caches w)).
Proof.
  revert w; induction evs as [|ev evs IH]; intros w; simpl; [tauto|].
  intros H; destruct (IH _ H) as [-> | H']; [tauto|].
  apply (dispatch_keys h ev w n H').
Qed.

(** X6. The only store the worker ever creates is the one named [CACHE_NAME]:
    after any sequence of install, activate and fetch events, in any order,
    and whenever the pending writes land between them, the names of the
    stores are still unique and each of them is [CACHE_NAME] or the name of
    a store that was there before. *)
Theorem worker_creates_only_current_store
        (h : Host) (evs : list Event) (w : World) :
  storage_wf (caches w) ->
  storage_wf (caches (dispatch_all h evs w)) /\
  forall n, In n (cs_keys (caches (dispatch_all h evs w))) ->
            n = CACHE_NAME \/ In n (cs_keys (caches w)).
Proof.
  intros Hwf; split; [apply dispatch_all_wf, Hwf|].
  intros n; apply dispatch_all_keys.
Qed.

Lemma worker_creates_only_current_store_witness :
  storage_wf (caches (dispatch_all rotating_host a_visit fresh_world)) /\
  forall n,
    In n (cs_keys (caches (dispatch_all rotating_host a_visit fresh_world)))
    -> n = CACHE_NAME \/ In n (cs_keys (caches fresh_world)).
Proof.
  apply (worker_creates_only_current_store rotating_host a_visit fresh_world).
  unfold storage_wf; simpl; constructor.
Defined.

Lemma nodup_all_equal {A : Type} (a : A) (l : list A) :
  NoDup l -> (forall x, In x l -> x = a) -> l = [] \/ l = [a].
Proof.
  intros Hnd Hall.
  destruct l as [|x [|y l]]; [left; reflexivity | right | exfalso].
  - rewrite (Hall x); [reflexivity | left; reflexivity].
  - inversion Hnd as [|? ? Hnotin _]; subst; apply Hnotin.
    rewrite (Hall x), (Hall y); simpl; auto.
Qed.

(** X7. Once an activation has run, the storage holds at most the current
    generation for good: whatever events came before it and whatever
    events follow it, pending writes that land included, the stores are
    none or the one named [CACHE_NAME]. *)
Theorem one_generation_after_activation
        (h : Host) (before after : list Event) (w : World) :
  storage_wf (caches w) ->
  cs_keys (caches (dispatch_all h (before ++ Activate :: after) w)) = [] \/
  cs_keys (caches (dispatch_all h (before ++ Activate :: after) w))
  = [CACHE_NAME].
Proof.
  intros Hwf.
  unfold dispatch_all; rewrite fold_left_app; simpl.
  fold (dispatch_all h before w).
  set (w1 := dispatch_all h before w).
  fold (dispatch_all h after (snd (onactivate w1))).
  assert (Hwf1 : storage_wf (caches w1)) by (apply dispatch_all_wf, Hwf).
  apply nodup_all_equal.
  - apply dispatch_all_wf, onactivate_wf, Hwf1.
  - intros n Hn.
    apply dispatch_all_keys in Hn as [-> | Hn]; [reflexivity|].
    destruct (onactivate_run w1) as [bs [w2 [Hrun Hc]]].
    rewrite Hrun in Hn; simpl in Hn; rewrite Hc in Hn.
    unfold cs_keys in Hn; apply in_map_iff in Hn as [e [<- He]].
    apply filter_In in He as [_ He]; apply String.eqb_eq; exact He.
Qed.

Lemma one_generation_after_activation_witness :
  cs_keys (caches (dispatch_all rotating_host
                     ([Fetch about_request] ++ Activate
                        :: [Settle; Fetch home_request; Install])
                     (mkWorld three_generations []))) = [] \/
  cs_keys (caches (dispatch_all rotating_host
                     ([Fetch about_request] ++ Activate
                        :: [Settle; Fetch home_request; Install])
                     (mkWorld three_generations []))) = [CACHE_NAME].
Proof.
  apply (one_generation_after_activation
           rotating_host [Fetch about_request]
           [Settle; Fetch home_request; Install]
           (mkWorld three_generations [])).
  unfold storage_wf; simpl; repeat constructor; simpl;
    intuition discriminate.
Defined.

(** ** Generated audio never enters the storage *)

Lemma forallb_filter_keep {A : Type} (f g : A -> bool) (l : list A) :
  forallb f l = true -> forallb f (filter g l) = true.
Proof.
  rewrite !forallb_forall; intros H x Hx.
  apply filter_In in Hx as [Hx _]; auto.
Qed.

Lemma cache_static_put (q : Request) (r : Response) (c : Cache) :
  dynamic_path (pathname (url q)) = false ->
  cache_static c = true ->
  cache_static (entries_put q r c) = true.
Proof.
  intros Hq Hc; unfold cache_static, entries_put.
  rewrite forallb_app; simpl; rewrite Hq; simpl.
  rewrite andb_true_r; apply forallb_filter_keep; exact Hc.
Qed.

Lemma cache_static_put_all (es : list (Request * Response)) (c : Cache) :
  (forall q, In q (map fst es) -> dynamic_path (pathname (url q)) = false) ->
  cache_static c = true ->
  cache_static (put_all es c) = true.
Proof.
  revert c; induction es as [|e es IH]; intros c Hes Hc; simpl; [exact Hc|].
  apply IH.
  - intros q Hq; apply Hes; right; exact Hq.
  - apply cache_static_put; [apply Hes; left; reflexivity | exact Hc].
Qed.

Lemma dynamic_free_open (n : string) (s : CacheStorage) :
  dynamic_free s = true -> dynamic_free (cs_open n s) = true.
Proof.
  unfold cs_open; destruct (cs_has n s); [tauto|].
  unfold dynamic_free; rewrite forallb_app; simpl.
  intros ->; reflexivity.
Qed.

Lemma dynamic_free_update (n : string) (f : Cache -> Cache)
      (s : CacheStorage) :
  (forall c, cache_static c = true -> cache_static (f c) = true) ->
  dynamic_free s = true -> dynamic_free (cs_update n f s) = true.
Proof.
  intros Hf; unfold dynamic_free.
  induction s as [|[m c] s IH]; simpl; [tauto|].
  rewrite andb_true_iff; intros [Hc Hs].
  destruct (String.eqb m n); simpl; rewrite andb_true_iff; auto.
Qed.

(** The four app-shell paths are not dynamic ones. *)
Lemma app_shell_static (h : Host) (q : Request) :
  In q (map (shell_request h) APP_SHELL) ->
  dynamic_path (pathname (url q)) = false.
Proof.
  simpl; intros [<- | [<- | [<- | [<- | []]]]]; reflexivity.
Qed.

Lemma promise_all_fetch_pending (h : Host) (reqs : list Request)
      (w : World) :
  pending (snd (promise_all (map (fetch h) reqs) w)) = pending w.
Proof.
  revert w; induction reqs as [|q reqs IH]; intros w; simpl; [reflexivity|].
  specialize (IH (log (CFetch q) w)).
  destruct (promise_all (map (fetch h) reqs) (log (CFetch q) w)) as [os w2].
  exact IH.
Qed.

(** Install and activate leave the pending writes pending. *)
Lemma oninstall_pending (h : Host) (w : World) :
  pending (snd (oninstall h w)) = pending w.
Proof.
  rewrite oninstall_unfold; unfold cache_addAll, then_.
  pose proof (promise_all_fetch_pending
                h (map (shell_request h) APP_SHELL)
                (log (CAddAll CACHE_NAME (map (shell_request h) APP_SHELL))
                     (log (COpen CACHE_NAME)
                          (set_caches (cs_open CACHE_NAME) w)))) as Hp.
  destruct (promise_all _ _) as [[l|e] w1]; simpl in Hp; [|exact Hp].
  destruct (find _ _); [exact Hp|].
  destruct (find _ _); exact Hp.
Qed.

Lemma onactivate_pending (w : World) :
  pending (snd (onactivate w)) = pending w.
Proof.
  unfold onactivate, then_, caches_keys.
  destruct (promise_all_delete
              (filter (fun k => negb (String.eqb k CACHE_NAME))
                      (cs_keys (caches w)))
              (log CKeys w)) as [bs Hbs].
  rewrite Hbs; reflexivity.
Qed.

Lemma land_dynamic_free (h : Host) (q : Request) (resp : Response)
      (w : World) :
  dynamic_path (pathname (url q)) = false ->
  dynamic_free (caches w) = true ->
  dynamic_free (caches (snd (land h (PutInCurrent q resp) w))) = true.
Proof.
  intros Hq Hfree; rewrite land_caches.
  destruct (negb (String.eqb (method q) "GET") || put_rejects h q resp).
  - apply dynamic_free_open, Hfree.
  - apply dynamic_free_update; [|apply dynamic_free_open, Hfree].
    intros c; apply cache_static_put; exact Hq.
Qed.

Lemma dispatch_dynamic_free (h : Host) (ev : Event) (w : World) :
  dynamic_free (caches w) = true ->
  forallb job_static (pending w) = true ->
  dynamic_free (caches (dispatch h ev w)) = true /\
  forallb job_static (pending (dispatch h ev w)) = true.
Proof.
  intros Hfree Hjobs.
  destruct ev as [| |req|]; simpl.
  - rewrite oninstall_pending; split; [|exact Hjobs].
    destruct (oninstall_caches h w) as [-> | [es [Hk ->]]].
    + apply dynamic_free_open, Hfree.
    + apply dynamic_free_update; [|apply dynamic_free_open, Hfree].
      intros c; apply cache_static_put_all.
      rewrite Hk; apply app_shell_static.
  - rewrite onactivate_pending; split; [|exact Hjobs].
    destruct (onactivate_run w) as [bs [w' [Hrun Hc]]].
    rewrite Hrun; simpl; rewrite Hc.
    apply forallb_filter_keep; exact Hfree.
  - rewrite onfetch_leaves_caches; split; [exact Hfree|].
    destruct (onfetch_pending h req w)
      as [-> | [_ [Hstatic [_ [_ [resp [_ ->]]]]]]]; [exact Hjobs|].
    rewrite forallb_app, Hjobs; simpl; rewrite Hstatic; reflexivity.
  - unfold settle.
    destruct (pending w) as [|[q resp] js] eqn:Hp; [rewrite Hp; auto|].
    simpl in Hjobs; apply andb_true_iff in Hjobs as [Hq Hjs].
    apply negb_true_iff in Hq.
    split; [|rewrite land_pending; exact Hjs].
    apply land_dynamic_free; assumption.
Qed.

(** A storage without generated audio has no answer for a request of a
    dynamic path. *)
Lemma dynamic_free_misses (s : CacheStorage) (q : Request) :
  dynamic_free s = true ->
  dynamic_path (pathname (url q)) = true ->
  cs_match s q = None.
Proof.
  intros Hfree Hdyn.
  destruct (cs_match s q) as [r|] eqn:Hm; [|reflexivity].
  apply cs_match_In in Hm as [n [c [Hs Hc]]].
  unfold dynamic_free in Hfree; rewrite forallb_forall in Hfree.
  specialize (Hfree _ Hs); simpl in Hfree.
  unfold cache_static in Hfree; rewrite forallb_forall in Hfree.
  specialize (Hfree _ Hc); simpl in Hfree.
  rewrite Hdyn in Hfree; discriminate.
Qed.

(** X8. The worker never stores generated audio: when no store holds an entry
    keyed by a request to a ["/result/"] or ["/download/"] path and no
    pending write is one for such a request (as when nothing is pending),
    then after any sequence of install, activate and fetch events, with the
    pending writes landing whenever between them, no store holds such an
    entry, no pending write is one for such a request, and the storage has
    no answer for any request of such a path. *)
Theorem generated_audio_never_stored
        (h : Host) (evs : list Event) (w : World) :
  dynamic_free (caches w) = true ->
  forallb job_static (pending w) = true ->
  dynamic_free (caches (dispatch_all h evs w)) = true /\
  forallb job_static (pending (dispatch_all h evs w)) = true /\
  forall q, dynamic_path (pathname (url q)) = true ->
            cs_match (caches (dispatch_all h evs w)) q = None.
Proof.
  intros Hfree Hjobs.
  assert (H : dynamic_free (caches (dispatch_all h evs w)) = true /\
              forallb job_static (pending (dispatch_all h evs w)) = true).
  { revert w Hfree Hjobs; induction evs as [|ev evs IH];
      intros w Hfree Hjobs; simpl; [split; assumption|].
    destruct (dispatch_dynamic_free h ev w Hfree Hjobs) as [Hf Hj].
    apply IH; assumption. }
  destruct H as [Hf Hj].
  split; [exact Hf|]. split; [exact Hj|].
  intros q; apply dynamic_free_misses; exact Hf.
Qed.

Lemma generated_audio_never_stored_witness :
  dynamic_free (caches (dispatch_all rotating_host a_visit fresh_world))
  = true /\
  forallb job_static
          (pending (dispatch_all rotating_host a_visit fresh_world)) = true /\
  forall q, dynamic_path (pathname (url q)) = true ->
            cs_match (caches (dispatch_all rotating_host a_visit fresh_world))
                     q = None.
Proof.
  apply (generated_audio_never_stored rotating_host a_visit fresh_world);
    reflexivity.
Defined.

(** ** What an install stores *)

Lemma nth_error_combine_In {A B : Type} (l : list A) (l' : list B)
      (i : nat) (a : A) (b : B) :
  nth_error l i = Some a -> nth_error l' i = Some b ->
  In (a, b) (combine l l').
Proof.
  revert l' i; induction l as [|x l IH]; intros [|y l'] [|i]; simpl;
    try discriminate.
  - intros H1 H2; injection H1 as ->; injection H2 as ->; left; reflexivity.
  - intros H1 H2; right; apply (IH l' i); assumption.
Qed.

(** Puts under other keys leave the answer to [q] alone. *)
Lemma put_all_other (es : list (Request * Response)) (c : Cache)
      (q : Request) :
  ~ In q (map fst es) ->
  entries_match (put_all es c) q = entries_match c q.
Proof.
  revert c; induction es as [|e es IH]; intros c Hq; simpl; [reflexivity|].
  simpl in Hq.
  rewrite IH by tauto.
  apply entries_match_put_other.
  destruct (request_eqb (fst e) q) eqn:E; [|reflexivity].
  apply request_eqb_eq in E; tauto.
Qed.

(** With distinct keys, every put is read back. *)
Lemma put_all_nodup (es : list (Request * Response)) (c : Cache)
      (q : Request) (r : Response) :
  NoDup (map fst es) -> In (q, r) es ->
  entries_match (put_all es c) q = Some r.
Proof.
  revert c; induction es as [|e es IH]; intros c Hnd Hin; simpl;
    [destruct Hin|].
  simpl in Hnd; inversion Hnd as [|? ? Hnotin Hnd']; subst.
  destruct Hin as [-> | Hin].
  - simpl in *; rewrite put_all_other by exact Hnotin.
    apply entries_match_put_same.
  - apply IH; assumption.
Qed.

Lemma shell_requests_nodup (h : Host) :
  NoDup (map (shell_request h) APP_SHELL).
Proof.
  simpl; repeat constructor; simpl; intuition discriminate.
Qed.

Section InstallExact.

Context (h : Host).

(** The answers of the fetches of [addAll], in the order of the list. *)
Lemma promise_all_fetch_nth (reqs : list Request) (w w' : World)
      (l : list Response) :
  promise_all (map (fetch h) reqs) w = (Fulfilled l, w') ->
  forall i q, nth_error reqs i = Some q ->
              network h (fetch_count w + i) q = nth_error l i.
Proof.
  revert w w' l; induction reqs as [|q0 reqs IH]; intros w w' l; simpl.
  - intros _ i q; rewrite nth_error_nil; discriminate.
  - specialize (IH (log (CFetch q0) w)).
    destruct (promise_all (map (fetch h) reqs) (log (CFetch q0) w))
      as [[l'|e] w2].
    + destruct (network h (fetch_count w) q0) as [r0|] eqn:Hr0; simpl;
        intros H; [|discriminate].
      injection H as <- _.
      intros [|i] q; simpl.
      * intros Hq; injection Hq as <-.
        rewrite Nat.add_0_r; exact Hr0.
      * intros Hq.
        rewrite <- (IH w2 l' eq_refl i q Hq), fetch_count_log; simpl.
        rewrite Nat.add_succ_r; reflexivity.
    + destruct (reply q0 (network h (fetch_count w) q0)); discriminate.
Qed.

(** [addAll] of distinct paths that was fulfilled: every path was answered
    with an ok response that the host stored, and the store answers the
    path with that response. *)
Lemma cache_addAll_fulfilled_inv (c : string) (paths : list string)
      (w w' : World) (i : nat) (path : string) (c0 : Cache) :
  cache_addAll h c paths w = (Fulfilled tt, w') ->
  NoDup (map (shell_request h) paths) ->
  cs_get c (caches w) = Some c0 ->
  nth_error paths i = Some path ->
  exists r,
    network h (fetch_count w + i) (shell_request h path) = Some r /\
    storable h (shell_request h path) r /\
    store_match c (caches w') (shell_request h path) = Some r.
Proof.
  unfold cache_addAll, then_.
  intros Hrun Hnd Hcur Hnth.
  set (reqs := map (shell_request h) paths) in *.
  set (w0 := log (CAddAll c reqs) w) in *.
  pose proof (promise_all_fetch_caches h reqs w0) as Hc.
  pose proof (promise_all_fetch_nth reqs w0) as Hn.
  pose proof (promise_all_fetch_fulfilled h reqs w0) as Hlen.
  destruct (promise_all (map (fetch h) reqs) w0) as [[l|e0] w1];
    [|discriminate].
  specialize (Hn w1 l eq_refl i (shell_request h path)).
  specialize (Hlen w1 l eq_refl).
  assert (Hq : nth_error reqs i = Some (shell_request h path))
    by (apply map_nth_error; exact Hnth).
  specialize (Hn Hq).
  change (fetch_count w0) with (fetch_count w) in Hn.
  destruct (nth_error l i) as [r|] eqn:Hr.
  2:{ apply nth_error_None in Hr.
      assert (i < List.length reqs) by (apply nth_error_Some; congruence).
      lia. }
  pose proof (nth_error_combine_In reqs l i _ r Hq Hr) as Hin.
  destruct (find (fun e => negb (response_ok (snd e))) (combine reqs l))
    eqn:Hok; [discriminate|].
  destruct (find (fun e => put_rejects h (fst e) (snd e)) (combine reqs l))
    eqn:Hput; [discriminate|].
  injection Hrun as <-.
  exists r; split; [exact Hn|]; split.
  - split.
    + apply (find_none _ _ Hok) in Hin; simpl in Hin.
      apply negb_false_iff; exact Hin.
    + apply (find_none _ _ Hput) in Hin; exact Hin.
  - cbn [snd] in Hc; cbn [caches set_caches]; rewrite Hc.
    change (caches w0) with (caches w).
    unfold store_match.
    rewrite (cs_get_update_same _ _ _ _ Hcur).
    unfold cache_match; cbn [method shell_request].
    apply put_all_nodup; [|exact Hin].
    rewrite map_fst_combine by exact Hlen.
    exact Hnd.
Qed.

(** An install that succeeded: every app-shell URL was answered with an ok
    response that the host stored, and the current store answers the URL
    with that response. *)
Lemma oninstall_fulfilled_inv (w w' : World) (i : nat) (path : string) :
  oninstall h w = (Fulfilled tt, w') ->
  nth_error APP_SHELL i = Some path ->
  exists r,
    network h (fetch_count w + i) (shell_request h path) = Some r /\
    storable h (shell_request h path) r /\
    store_match CACHE_NAME (caches w') (shell_request h path) = Some r.
Proof.
  rewrite oninstall_unfold; intros Hrun Hnth.
  destruct (cs_get_open CACHE_NAME (caches w)) as [c0 Hcur].
  apply (cache_addAll_fulfilled_inv _ _ _ _ i path c0 Hrun);
    [apply shell_requests_nodup | exact Hcur | exact Hnth].
Qed.

End InstallExact.

(** X9. An install stores what it fetched: after an install that succeeded, the
    current store answers each app-shell URL with the very response the
    network gave to the fetch of that URL during this install, whatever the
    store held for it before, and that response is an ok one. *)
Theorem install_stores_what_it_fetched
        (h : Host) (w w' : World) (i : nat) (path : string) :
  oninstall h w = (Fulfilled tt, w') ->
  nth_error APP_SHELL i = Some path ->
  exists r,
    network h (fetch_count w + i) (shell_request h path) = Some r /\
    response_ok r = true /\
    store_match CACHE_NAME (caches w') (shell_request h path) = Some r.
Proof.
  intros Hrun Hnth.
  destruct (oninstall_fulfilled_inv h w w' i path Hrun Hnth)
    as [r [Hnet [[Hok _] Hstored]]].
  exists r; auto.
Qed.

(** A second install replaces the page stored by the first one. *)
Lemma install_stores_what_it_fetched_witness :
  exists r,
    network rotating_host
            (fetch_count (dispatch rotating_host Install fresh_world) + 0)
            (shell_request rotating_host "/") = Some r /\
    response_ok r = true /\
    store_match CACHE_NAME
      (caches (dispatch_all rotating_host [Install; Install] fresh_world))
      (shell_request rotating_host "/")
    = Some r.
Proof.
  apply (install_stores_what_it_fetched
           rotating_host (dispatch rotating_host Install fresh_world)
           (dispatch_all rotating_host [Install; Install] fresh_world)
           0 "/");
    reflexivity.
Defined.

(** X10. The install succeeds exactly when every app-shell URL is answered with
    an ok response that the host stores. *)
Theorem install_succeeds_iff (h : Host) (w : World) :
  (exists w', oninstall h w = (Fulfilled tt, w')) <->
  (forall i path, nth_error APP_SHELL i = Some path ->
     exists r,
       network h (fetch_count w + i) (shell_request h path) = Some r /\
       response_ok r = true /\
       put_rejects h (shell_request h path) r = false).
Proof.
  split.
  - intros [w' Hrun] i path Hnth.
    destruct (oninstall_fulfilled_inv h w w' i path Hrun Hnth)
      as [r [Hnet [[Hok Hput] _]]].
    exists r; auto.
  - intros Hall; apply oninstall_succeeds.
    intros i path Hnth.
    destruct (Hall i path Hnth) as [r [Hnet [Hok Hput]]].
    exists r; split; [exact Hnet | split; assumption].
Qed.

(** X11. An error response fails the install: when one of the app-shell URLs is
    answered with a response that is not ok (a 404, say), the promise of
    the install handler is rejected and no entry is written, not even those
    of the URLs that were answered well. *)
Theorem install_rejects_error_response
        (h : Host) (w : World) (i : nat) (path : string) (r : Response) :
  nth_error APP_SHELL i = Some path ->
  network h (fetch_count w + i) (shell_request h path) = Some r ->
  response_ok r = false ->
  exists e w',
    oninstall h w = (Rejected e, w') /\
    caches w' = cs_open CACHE_NAME (caches w) /\
    forall q, cs_match (caches w') q = cs_match (caches w) q.
Proof.
  intros Hnth Hnet Hbad.
  destruct (oninstall h w) as [[[]|e] w'] eqn:Hrun.
  - destruct (oninstall_fulfilled_inv h w w' i path Hrun Hnth)
      as [r' [Hnet' [[Hok _] _]]].
    congruence.
  - exists e, w'; split; [reflexivity|].
    rewrite oninstall_unfold in Hrun.
    apply cache_addAll_rejected in Hrun; simpl in Hrun; rewrite Hrun.
    split; [reflexivity | intros q; apply cs_match_open].
Qed.

Lemma install_rejects_error_response_witness :
  exists e w',
    oninstall not_found_host fresh_world = (Rejected e, w') /\
    caches w' = [(CACHE_NAME, [])] /\
    forall q, cs_match (caches w') q = cs_match (caches fresh_world) q.
Proof.
  apply (install_rejects_error_response
           not_found_host fresh_world 0 "/" not_found); reflexivity.
Defined.

Lemma install_succeeds_iff_witness :
  exists w', oninstall rotating_host fresh_world = (Fulfilled tt, w').
Proof.
  apply (proj2 (install_succeeds_iff rotating_host fresh_world)).
  intros i path H.
  do 4 (destruct i as [|i];
        [injection H as <-; eexists; repeat split|]).
  destruct i; discriminate.
Defined.

(** X12. An install touches the app-shell entries of the current store and
    nothing else: whether it succeeds or fails, every other store, and in
    the current store every key that is not an app-shell URL, answers as
    before. *)
Theorem install_changes_only_shell_entries
        (h : Host) (w : World) (n : string) (q : Request) :
  n <> CACHE_NAME \/ ~ In q (map (shell_request h) APP_SHELL) ->
  store_match n (caches (snd (oninstall h w))) q
  = store_match n (caches w) q.
Proof.
  intros Hother.
  destruct (oninstall_caches h w) as [-> | [es [Hk ->]]].
  - apply store_match_open.
  - rewrite <- (store_match_open CACHE_NAME n (caches w) q).
    destruct Hother as [Hn | Hq].
    + unfold store_match; rewrite cs_get_update_other by exact Hn.
      reflexivity.
    + apply store_match_update_frame; intros c.
      unfold cache_match.
      destruct (String.eqb (method q) "GET"); [|reflexivity].
      apply put_all_other; rewrite Hk; exact Hq.
Qed.

Lemma install_changes_only_shell_entries_witness :
  store_match "freqshift-pwa-v0"
    (caches (snd (oninstall rotating_host (mkWorld three_generations []))))
    home_request
  = Some old_page.
Proof.
  apply (install_changes_only_shell_entries
           rotating_host (mkWorld three_generations [])
           "freqshift-pwa-v0" home_request).
  left; discriminate.
Defined.

(** ** Install, then activate *)

(** After an activation, [caches.match] is a lookup in what was the current
    generation's store: a stale store that answered in its place before
    does so no more. *)
Lemma onactivate_lookup (w : World) (q : Request) :
  storage_wf (caches w) ->
  cs_match (caches (snd (onactivate w))) q
  = store_match CACHE_NAME (caches w) q.
Proof.
  intros Hwf.
  destruct (onactivate_run w) as [bs [w' [Hrun Hc]]].
  rewrite Hrun; simpl; rewrite Hc.
  pose proof (keys_of_named CACHE_NAME (caches w) Hwf) as Hk.
  destruct (cs_has CACHE_NAME (caches w)) eqn:Hhas.
  - rewrite (cs_match_single _ _ q Hk).
    unfold store_match; rewrite cs_get_named; reflexivity.
  - destruct (filter _ (caches w)) as [|e s']; [|discriminate]; simpl.
    unfold store_match.
    destruct (cs_get CACHE_NAME (caches w)) as [c|] eqn:Hg; [|reflexivity].
    assert (cs_has CACHE_NAME (caches w) = true)
      by (apply cs_has_get; exists c; exact Hg).
    congruence.
Qed.

(** X13. After an activation the fetch handler answers from the current
    generation's store only: what the storage answers to a request is what
    the current store answered to it before the activation, also where a
    stale store created earlier answered differently or the current store
    had no answer. *)
Theorem activation_unshadows_current_store
        (h : Host) (w : World) (q : Request) :
  storage_wf (caches w) ->
  cs_match (caches (snd (onactivate w))) q
  = store_match CACHE_NAME (caches w) q /\
  forall r,
    dynamic_path (pathname (url q)) = false ->
    store_match CACHE_NAME (caches w) q = Some r ->
    onfetch h q (snd (onactivate w))
    = (Fulfilled r, log (CMatch q) (snd (onactivate w))).
Proof.
  intros Hwf.
  split; [apply onactivate_lookup; exact Hwf|].
  intros r Hstatic Hcur.
  apply onfetch_hit; [exact Hstatic|].
  rewrite onactivate_lookup by exact Hwf; exact Hcur.
Qed.

(** With generations [v0], [v1], [v2] and [v1] current, [v0] answers for
    the page before the activation and [v1] after it. *)
Lemma activation_unshadows_current_store_witness :
  cs_match three_generations home_request = Some old_page /\
  cs_match (caches (snd (onactivate (mkWorld three_generations []))))
           home_request
  = Some new_page /\
  forall r,
    dynamic_path (pathname (url home_request)) = false ->
    store_match CACHE_NAME three_generations home_request = Some r ->
    onfetch offline_host home_request
            (snd (onactivate (mkWorld three_generations [])))
    = (Fulfilled r,
       log (CMatch home_request)
           (snd (onactivate (mkWorld three_generations [])))).
Proof.
  split; [reflexivity|].
  apply (activation_unshadows_current_store
           offline_host (mkWorld three_generations []) home_request).
  unfold storage_wf; simpl; repeat constructor; simpl;
    intuition discriminate.
Defined.

(** X14. Install and activate compose to the state the worker is meant to run
    in: after an install that succeeded and the activation that follows
    it, from any storage, the current generation's store is the only store
    and the storage answers each app-shell URL with the response fetched
    for it during the install. *)
Theorem install_then_activate
        (h : Host) (w w1 : World) :
  storage_wf (caches w) ->
  oninstall h w = (Fulfilled tt, w1) ->
  exists bs w2,
    onactivate w1 = (Fulfilled bs, w2) /\
    cs_keys (caches w2) = [CACHE_NAME] /\
    forall i path, nth_error APP_SHELL i = Some path ->
      exists r,
        network h (fetch_count w + i) (shell_request h path) = Some r /\
        cs_match (caches w2) (shell_request h path) = Some r.
Proof.
  intros Hwf Hrun.
  assert (Hwf1 : storage_wf (caches w1)).
  { pose proof (oninstall_wf h w Hwf) as H; rewrite Hrun in H; exact H. }
  assert (Hhas : cs_has CACHE_NAME (caches w1) = true).
  { pose proof (oninstall_opens_current h w) as H; rewrite Hrun in H;
      exact H. }
  destruct (onactivate_run w1) as [bs [w2 [Hact Hc]]].
  exists bs, w2; split; [exact Hact|].
  split.
  - rewrite Hc, keys_of_named, Hhas by exact Hwf1; reflexivity.
  - intros i path Hnth.
    destruct (oninstall_fulfilled_inv h w w1 i path Hrun Hnth)
      as [r [Hnet [_ Hstored]]].
    exists r; split; [exact Hnet|].
    pose proof (onactivate_lookup w1 (shell_request h path) Hwf1) as Hl.
    rewrite Hact in Hl; simpl in Hl; rewrite Hl; exact Hstored.
Qed.

Lemma install_then_activate_witness :
  exists bs w2,
    onactivate (snd (oninstall rotating_host (mkWorld three_generations [])))
    = (Fulfilled bs, w2) /\
    cs_keys (caches w2) = [CACHE_NAME] /\
    forall i path, nth_error APP_SHELL i = Some path ->
      exists r,
        network rotating_host
                (fetch_count (mkWorld three_generations []) + i)
                (shell_request rotating_host path) = Some r /\
        cs_match (caches w2) (shell_request rotating_host path) = Some r.
Proof.
  apply (install_then_activate
           rotating_host (mkWorld three_generations [])
           (snd (oninstall rotating_host (mkWorld three_generations [])))).
  - unfold storage_wf; simpl; repeat constructor; simpl;
      intuition discriminate.
  - reflexivity.
Defined.

(** X15. The app shell is there when the network is not: after an install that
    succeeded and the activation that follows it, on any host (one without
    a network, too) and after any number of fetch events, the fetch handler
    answers each app-shell URL with the response fetched for it during the
    install, and the only host call it makes is the cache lookup.  The same
    holds when pending writes land between those fetch events, provided
    none was pending for that URL when the install began. *)
Theorem app_shell_served_offline
        (h : Host) (w w1 : World) (i : nat) (path : string)
        (h' : Host) (reqs : list Request) (evs : list Event) :
  storage_wf (caches w) ->
  oninstall h w = (Fulfilled tt, w1) ->
  nth_error APP_SHELL i = Some path ->
  exists r,
    network h (fetch_count w + i) (shell_request h path) = Some r /\
    onfetch h' (shell_request h path)
            (dispatch_all h' (map Fetch reqs) (snd (onactivate w1)))
    = (Fulfilled r,
       log (CMatch (shell_request h path))
           (dispatch_all h' (map Fetch reqs) (snd (onactivate w1)))) /\
    (existsb (writes_key (shell_request h path)) (pending w) = false ->
     forallb page_traffic evs = true ->
     onfetch h' (shell_request h path)
             (dispatch_all h' evs (snd (onactivate w1)))
     = (Fulfilled r,
        log (CMatch (shell_request h path))
            (dispatch_all h' evs (snd (onactivate w1))))).
Proof.
  intros Hwf Hrun Hnth.
  assert (Hwf1 : storage_wf (caches w1)).
  { pose proof (oninstall_wf h w Hwf) as H; rewrite Hrun in H; exact H. }
  assert (Hp1 : pending (snd (onactivate w1)) = pending w).
  { rewrite onactivate_pending.
    pose proof (oninstall_pending h w) as H; rewrite Hrun in H; exact H. }
  destruct (oninstall_fulfilled_inv h w w1 i path Hrun Hnth)
    as [r [Hnet [_ Hstored]]].
  assert (Hstatic : dynamic_path (pathname (url (shell_request h path)))
                    = false)
    by (apply (app_shell_static h), in_map, (nth_error_In _ _ Hnth)).
  assert (Hhit : cs_match (caches (snd (onactivate w1)))
                          (shell_request h path) = Some r)
    by (rewrite onactivate_lookup by exact Hwf1; exact Hstored).
  exists r; split; [exact Hnet|]. split.
  - apply onfetch_hit; [exact Hstatic|].
    apply dispatch_fetches_keep_hit; exact Hhit.
  - intros Hnone Hevs.
    apply onfetch_hit; [exact Hstatic|].
    apply dispatch_all_traffic_keeps_hit; [exact Hevs | exact Hhit |].
    rewrite Hp1; exact Hnone.
Qed.

Lemma app_shell_served_offline_witness :
  exists r,
    network rotating_host (fetch_count fresh_world + 1)
            (shell_request rotating_host "/manifest.webmanifest") = Some r /\
    onfetch offline_host (shell_request rotating_host "/manifest.webmanifest")
      (dispatch_all offline_host (map Fetch [about_request; result_request])
         (snd (onactivate (snd (oninstall rotating_host fresh_world)))))
    = (Fulfilled r,
       log (CMatch (shell_request rotating_host "/manifest.webmanifest"))
         (dispatch_all offline_host (map Fetch [about_request; result_request])
            (snd (onactivate (snd (oninstall rotating_host fresh_world)))))) /\
    (existsb (writes_key (shell_request rotating_host "/manifest.webmanifest"))
             (pending fresh_world) = false ->
     forallb page_traffic [Fetch about_request; Settle; Fetch home_request]
     = true ->
     onfetch offline_host (shell_request rotating_host "/manifest.webmanifest")
       (dispatch_all offline_host
          [Fetch about_request; Settle; Fetch home_request]
          (snd (onactivate (snd (oninstall rotating_host fresh_world)))))
     = (Fulfilled r,
        log (CMatch (shell_request rotating_host "/manifest.webmanifest"))
          (dispatch_all offline_host
             [Fetch about_request; Settle; Fetch home_request]
             (snd (onactivate (snd (oninstall rotating_host fresh_world))))))).
Proof.
  apply (app_shell_served_offline
           rotating_host fresh_world
           (snd (oninstall rotating_host fresh_world))
           1 "/manifest.webmanifest"
           offline_host [about_request; result_request]
           [Fetch about_request; Settle; Fetch home_request]).
  - unfold storage_wf; simpl; constructor.
  - reflexivity.
  - reflexivity.
Defined.

(** ** Activation and the network *)

Lemma filter_fetch_deletes (ks : list string) :
  filter is_fetch (rev (map CDelete ks)) = [].
Proof.
  rewrite filter_rev.
  induction ks as [|k ks IH]; simpl; [reflexivity|].
  rewrite IH; reflexivity.
Qed.

(** X16. The activation works on the cache storage alone: it lists the stores
    once, deletes each store whose name is not [CACHE_NAME] once, in the
    order of their creation, and makes no other host call; in particular
    it never goes to the network, so it succeeds offline. *)
Theorem activation_only_deletes_stale_stores (w : World) :
  exists bs w',
    onactivate w = (Fulfilled bs, w') /\
    calls w' =
      rev (map CDelete
               (filter (fun k => negb (String.eqb k CACHE_NAME))
                       (cs_keys (caches w))))
      ++ CKeys :: calls w /\
    fetch_count w' = fetch_count w /\
    List.length bs
    = List.length (filter (fun k => negb (String.eqb k CACHE_NAME))
                          (cs_keys (caches w))).
Proof.
  unfold onactivate, then_, caches_keys.
  set (stale := filter (fun k => negb (String.eqb k CACHE_NAME))
                       (cs_keys (caches w))).
  assert (Hlen : forall ks w0 bs w1,
             promise_all (map (fun k => caches_delete k) ks) w0
             = (Fulfilled bs, w1) ->
             List.length bs = List.length ks).
  { induction ks as [|k ks IH]; intros w0 bs w1; simpl.
    - unfold resolve; intros H; injection H as <- _; reflexivity.
    - specialize (IH (log (CDelete k) (set_caches (cs_delete k) w0))).
      destruct (promise_all _ _) as [[l|e] w2]; [|discriminate].
      intros H; injection H as <- _; simpl.
      rewrite (IH l w2 eq_refl); reflexivity. }
  destruct (promise_all_delete stale (log CKeys w)) as [bs Hbs].
  exists bs; eexists; split; [exact Hbs|]; simpl.
  split; [reflexivity|]; split.
  - unfold fetch_count; simpl.
    rewrite filter_app, filter_fetch_deletes; reflexivity.
  - apply (Hlen _ _ _ _ Hbs).
Qed.

(** ** The paths of generated audio *)




